(** * rpi-vidlooper: the GPIO-controlled video looper, embedded and verified

    A shallow embedding of [rpi_vidlooper/vidlooper.py].  The Python object
    [VidLooper] becomes a record, the outside world it talks to (GPIO
    levels, child processes, the mutex, and a log of every external call)
    becomes a second record, and each method becomes a computation in a
    small state-and-exception monad, so that a raised exception keeps the
    mutations performed before it, exactly as in Python.

    What the world is taken to do: [Popen] either returns a fresh child or
    raises, as the world's list of launch outcomes says; signals, GPIO calls
    and [os.system] always go through; a child that has been signalled, or
    waited for, or has exited, no longer runs.  Every method call runs to
    its end before the next event is looked at: the threads of the real
    program are not interleaved here, only told apart by what they log. *)

From Stdlib Require Import ZArith Lia Ascii String.
From stdpp Require Import base option list gmap strings.

(** ** Python values *)

(** The exceptions the program can raise.  [OSError] stands for whatever
    [subprocess.Popen] raises when the player cannot be launched;
    [Exception] is the bare [Exception] of the directory scan. *)
Inductive exn :=
  | FileNotFoundError
  | Exception
  | AssertionError
  | TypeError
  | ValueError
  | IndexError
  | OSError
  | AttributeError
  | KeyboardInterrupt.

Inductive signal := SIGINT | SIGKILL.

(** The two fields the source calls the player state. *)
Inductive field := F_p | F_active_vid.

(** A [subprocess.Popen] object: its [pid], its [args], and whether it was
    started with [preexec_fn=os.setsid]. *)
Record Popen := {
  pid : Z;
  args : list string;
  setsid : bool }.

(** The two callbacks registered with [GPIO.add_event_detect]. *)
Inductive handler := ShutdownNow | SwitchVid.

(** Every call that leaves the interpreter, and every access to the player
    state, is recorded as one action. *)
Inductive action :=
  | LockAcquire
  | LockRelease
  | Load (f : field)
  | Store (f : field)
  | GpioSetmode
  | GpioSetupIn (pin : Z)
  | GpioSetupOut (pin : Z)
  | GpioOutput (pin : Z) (level : bool)
  | GpioAddEventDetect (pin : Z) (callback : handler) (bouncetime : Z)
  | GpioCleanup
  | OsSystem (cmd : string)
  | Killpg (pgid : Z) (sig : signal)
  | Spawn (argv : list string) (pipe_stdout : bool) (session : bool)
          (child : option Z)
  | Sleep (ms : Z)
  | Communicate (child : Z).

(** ** The object *)

Record VidLooper := {
  gpio_pins : list (Z * option Z);
  shutdown_pin : option Z;
  videos : list string;
  debug : bool;
  audio : string;
  autostart : bool;
  restart_on_press : bool;
  loop : bool;
  no_osd : bool;
  splash : option string;
  _splashproc : option Popen;
  _active_vid : option string;
  _p : option Popen }.

Definition _GPIO_BOUNCE_TIME : Z := 200.

Definition _VIDEO_EXTS : list string :=
  [".mp4"; ".m4v"; ".mov"; ".avi"; ".mkv"]%string.

Definition _GPIO_PIN_DEFAULT : list (Z * option Z) :=
  [(26, Some 21); (19, Some 20); (13, Some 16); (6, Some 12)]%Z.

Definition set_p (v : option Popen) (o : VidLooper) : VidLooper :=
  {| gpio_pins := gpio_pins o; shutdown_pin := shutdown_pin o;
     videos := videos o; debug := debug o; audio := audio o;
     autostart := autostart o; restart_on_press := restart_on_press o;
     loop := loop o; no_osd := no_osd o; splash := splash o;
     _splashproc := _splashproc o; _active_vid := _active_vid o;
     _p := v |}.

Definition set_active_vid (v : option string) (o : VidLooper) : VidLooper :=
  {| gpio_pins := gpio_pins o; shutdown_pin := shutdown_pin o;
     videos := videos o; debug := debug o; audio := audio o;
     autostart := autostart o; restart_on_press := restart_on_press o;
     loop := loop o; no_osd := no_osd o; splash := splash o;
     _splashproc := _splashproc o; _active_vid := v;
     _p := _p o |}.

Definition set_splashproc (v : option Popen) (o : VidLooper) : VidLooper :=
  {| gpio_pins := gpio_pins o; shutdown_pin := shutdown_pin o;
     videos := videos o; debug := debug o; audio := audio o;
     autostart := autostart o; restart_on_press := restart_on_press o;
     loop := loop o; no_osd := no_osd o; splash := splash o;
     _splashproc := v; _active_vid := _active_vid o;
     _p := _p o |}.

(** ** The world *)

(** A child process that has been launched and has neither been signalled
    nor exited. *)
Record proc := {
  p_pid : Z;
  p_pgid : Z;
  p_args : list string }.

(** The process group of the looper itself; a child started without
    [os.setsid] stays in it. *)
Definition own_pgid : Z := 0.

(** [levels] holds the level driven on each output channel, [procs] the
    running children, [next_pid] the pid the next child receives,
    [launches] the fate of the coming [Popen] calls ([false]: the call
    raises; an exhausted list: it succeeds), [locked] the state of
    [_mutex], and [log] every action so far, newest first. *)
Record World := {
  levels : gmap Z bool;
  procs : list proc;
  next_pid : Z;
  launches : list bool;
  locked : bool;
  log : list action }.

Record Sys := {
  self : VidLooper;
  world : World }.

Definition history (s : Sys) : list action := rev (log (world s)).

(** ** The monad *)

(** A call returns, raises, or never comes back ([Hang]: a mutex that is
    never granted, a run loop that is still running). *)
Inductive outcome (A : Type) :=
  | Ret (a : A)
  | Raise (e : exn)
  | Hang.
Arguments Ret {A} a.
Arguments Raise {A} e.
Arguments Hang {A}.

Definition M (A : Type) : Type := Sys -> outcome A * Sys.

Definition ret {A} (a : A) : M A := fun s => (Ret a, s).

Definition raise {A} (e : exn) : M A := fun s => (Raise e, s).

Definition bind {A B} (m : M A) (k : A -> M B) : M B :=
  fun s =>
    match m s with
    | (Ret a, s1) => k a s1
    | (Raise e, s1) => (Raise e, s1)
    | (Hang, s1) => (Hang, s1)
    end.

Notation "x <~ m ;; k" := (bind m (fun x => k))
  (at level 100, m at next level, right associativity).
Notation "m ;;; k" := (bind m (fun _ => k))
  (at level 100, right associativity).

(** [try: body finally: fin]: [fin] runs whether [body] returns or raises,
    and an exception of [fin] replaces the one of [body]. *)
Definition try_finally {A} (body : M A) (fin : M unit) : M A :=
  fun s =>
    match body s with
    | (Hang, s1) => (Hang, s1)
    | (r, s1) =>
        match fin s1 with
        | (Ret _, s2) => (r, s2)
        | (Raise e, s2) => (Raise e, s2)
        | (Hang, s2) => (Hang, s2)
        end
    end.

Fixpoint for_ {A} (l : list A) (body : A -> M unit) : M unit :=
  match l with
  | [] => ret tt
  | x :: l' => body x ;;; for_ l' body
  end.

Definition when (b : bool) (m : M unit) : M unit :=
  if b then m else ret tt.

(** *** Primitive steps *)

Definition with_log (f : list action -> list action) (w : World) : World :=
  {| levels := levels w; procs := procs w; next_pid := next_pid w;
     launches := launches w; locked := locked w; log := f (log w) |}.

Definition with_levels (f : gmap Z bool -> gmap Z bool) (w : World) : World :=
  {| levels := f (levels w); procs := procs w; next_pid := next_pid w;
     launches := launches w; locked := locked w; log := log w |}.

Definition with_procs (f : list proc -> list proc) (w : World) : World :=
  {| levels := levels w; procs := f (procs w); next_pid := next_pid w;
     launches := launches w; locked := locked w; log := log w |}.

Definition with_locked (b : bool) (w : World) : World :=
  {| levels := levels w; procs := procs w; next_pid := next_pid w;
     launches := launches w; locked := b; log := log w |}.

Definition in_world (f : World -> World) : M unit :=
  fun s => (Ret tt, {| self := self s; world := f (world s) |}).

Definition in_self (f : VidLooper -> VidLooper) : M unit :=
  fun s => (Ret tt, {| self := f (self s); world := world s |}).

Definition emit (a : action) : M unit := in_world (with_log (cons a)).

(** Reading an attribute that is fixed after construction. *)
Definition attr {A} (f : VidLooper -> A) : M A := fun s => (Ret (f (self s)), s).

(** Reads and writes of the player state leave a trace in the log. *)
Definition load_p : M (option Popen) :=
  emit (Load F_p) ;;; attr _p.

Definition store_p (v : option Popen) : M unit :=
  emit (Store F_p) ;;; in_self (set_p v).

Definition load_active_vid : M (option string) :=
  emit (Load F_active_vid) ;;; attr _active_vid.

Definition store_active_vid (v : option string) : M unit :=
  emit (Store F_active_vid) ;;; in_self (set_active_vid v).

(** [Lock.acquire]: a held lock is never granted to a second taker. *)
Definition acquire : M unit :=
  fun s =>
    if locked (world s) then (Hang, s)
    else (emit LockAcquire ;;; in_world (with_locked true)) s.

Definition release : M unit :=
  emit LockRelease ;;; in_world (with_locked false).

(** [with self._mutex: body] *)
Definition with_mutex {A} (body : M A) : M A :=
  acquire ;;; try_finally body release.

(** [GPIO.output(pin, level)] *)
Definition gpio_output (pin : Z) (level : bool) : M unit :=
  emit (GpioOutput pin level) ;;; in_world (with_levels (insert pin level)).

(** [GPIO.cleanup()]: every channel goes back to an input, so no output is
    driven any more. *)
Definition gpio_cleanup : M unit :=
  emit GpioCleanup ;;; in_world (with_levels (fun _ => ∅)).

(** [os.getpgid(p.pid)]: a child started with [os.setsid] leads its own
    group, any other child shares the looper's group. *)
Definition getpgid (p : Popen) : Z :=
  if setsid p then pid p else own_pgid.

(** [os.killpg(pgid, sig)]: the signal reaches every child of the group;
    a signalled child no longer counts as running. *)
Definition killpg (pgid : Z) (sig : signal) : M unit :=
  emit (Killpg pgid sig) ;;;
  in_world (with_procs (filter (fun pr => p_pgid pr ≠ pgid))).

(** [Popen(argv, stdout=..., preexec_fn=...)] *)
Definition popen (argv : list string) (pipe_stdout session : bool) : M Popen :=
  fun s =>
    let w := world s in
    match launches w with
    | false :: rest =>
        (Raise OSError,
         {| self := self s;
            world := {| levels := levels w; procs := procs w;
                        next_pid := next_pid w; launches := rest;
                        locked := locked w;
                        log := Spawn argv pipe_stdout session None :: log w |} |})
    | _ =>
        let n := next_pid w in
        let h := {| pid := n; args := argv; setsid := session |} in
        (Ret h,
         {| self := self s;
            world := {| levels := levels w;
                        procs := {| p_pid := n; p_pgid := getpgid h;
                                    p_args := argv |} :: procs w;
                        next_pid := (n + 1)%Z; launches := tail (launches w);
                        locked := locked w;
                        log := Spawn argv pipe_stdout session (Some n) :: log w |} |})
    end.

(** [p.communicate()] returns once the child has exited. *)
Definition communicate (p : Popen) : M unit :=
  emit (Communicate (pid p)) ;;;
  in_world (with_procs (filter (fun pr => p_pid pr ≠ pid p))).

(** ** The methods of [VidLooper] *)

(** [tuple.index]: position of the first occurrence. *)
Fixpoint index_of (l : list Z) (x : Z) : option nat :=
  match l with
  | [] => None
  | y :: l' => if bool_decide (y = x) then Some 0%nat else S <$> index_of l' x
  end.

Definition tuple_index (l : list Z) (x : Z) : M nat :=
  match index_of l x with
  | Some k => ret k
  | None => raise ValueError
  end.

Definition getitem {A} (l : list A) (k : nat) : M A :=
  match l !! k with
  | Some a => ret a
  | None => raise IndexError
  end.

(** [in_pins]: the keys of the pin dictionary, in order. *)
Definition in_pins (o : VidLooper) : list Z := (gpio_pins o).*1.

Definition _kill_process : M unit :=
  p <~ load_p ;;
  when (bool_decide (p ≠ None)) (
    q <~ load_p ;;
    match q with
    | Some h => killpg (getpgid h) SIGINT
    | None => raise AttributeError
    end ;;;
    store_p None).

(** The first loop of [switch_vid], and its body for one dictionary item. *)
Definition output_step (pin : Z) (io : Z * option Z) : M unit :=
  match io.2 with
  | Some out_pin => gpio_output out_pin (bool_decide (io.1 = pin))
  | None => ret tt
  end.

Definition update_outputs (pin : Z) : M unit :=
  pins <~ attr gpio_pins ;;
  for_ pins (output_step pin).

Definition player_cmd (o : VidLooper) : list string :=
  ["omxplayer"; "-b"; "-o"; audio o]%string
  ++ (if loop o then ["--loop"%string] else [])
  ++ (if no_osd o then ["--no-osd"%string] else []).

Definition switch_vid (pin : Z) : M unit :=
  with_mutex (
    update_outputs pin ;;;
    vids <~ attr videos ;;
    pins <~ attr in_pins ;;
    k <~ tuple_index pins pin ;;
    filename <~ getitem vids k ;;
    active <~ load_active_vid ;;
    restart <~ attr restart_on_press ;;
    if bool_decide (Some filename ≠ active) || restart then
      _kill_process ;;;
      cmd <~ attr player_cmd ;;
      dbg <~ attr debug ;;
      h <~ popen (cmd ++ [filename]) (negb dbg) true ;;
      store_p (Some h) ;;;
      store_active_vid (Some filename)
    else ret tt).

(** *** The run loop and the teardown *)

Definition os_system (cmd : string) : M unit := emit (OsSystem cmd).

Definition sleep (ms : Z) : M unit := emit (Sleep ms).

(** [self._p.pid]: one more read of [_p]; on [None] the attribute lookup
    fails. *)
Definition load_p_pid : M Z :=
  p <~ load_p ;;
  match p with
  | Some h => ret (pid h)
  | None => raise AttributeError
  end.

(** First half of the poll: remember the pid and wait for the player. *)
Definition poll_wait : M Z :=
  p <~ load_p ;;
  if bool_decide (is_Some p) then
    n <~ load_p_pid ;;
    q <~ load_p ;;
    match q with
    | Some h => communicate h ;;; ret n
    | None => raise AttributeError
    end
  else ret (-1)%Z.

(** The [# Reset LEDs] loop, and its body for one dictionary value. *)
Definition reset_step (o : option Z) : M unit :=
  match o with
  | Some out_pin => gpio_output out_pin false
  | None => ret tt
  end.

Definition reset_outputs : M unit :=
  pins <~ attr gpio_pins ;;
  for_ pins.*2 reset_step.

(** Second half of the poll: reset if the player is still the one that was
    waited for. *)
Definition poll_reset (n : Z) : M unit :=
  p <~ load_p ;;
  when (bool_decide (is_Some p)) (
    m <~ load_p_pid ;;
    when (bool_decide (m = n)) (
      reset_outputs ;;;
      store_active_vid None ;;;
      store_p None)).

(** One turn of [while True]. *)
Definition loop_body : M unit :=
  sleep 500 ;;;
  lp <~ attr loop ;;
  when (negb lp) (n <~ poll_wait ;; poll_reset n).

Definition __del__ : M unit :=
  dbg <~ attr debug ;;
  when (negb dbg) (os_system "tput cnorm") ;;;
  gpio_cleanup ;;;
  _kill_process ;;;
  sp <~ attr _splashproc ;;
  match sp with
  | Some h => killpg (getpgid h) SIGKILL
  | None => ret tt
  end.

(** What can happen while the run loop is running: the loop takes a turn,
    the GPIO thread delivers an edge to [switch_vid], a child exits by
    itself, or an exception (the operator's interrupt or any other error)
    is raised in the main thread. *)
Inductive event :=
  | Tick
  | Edge (pin : Z)
  | ChildExit (child : Z)
  | Throw (e : exn).

(** A callback runs on the GPIO thread: what it raises never reaches the
    main thread. *)
Definition on_gpio_thread (m : M unit) : M unit :=
  fun s =>
    match m s with
    | (Hang, s1) => (Hang, s1)
    | (_, s1) => (Ret tt, s1)
    end.

Definition child_exit (n : Z) : M unit :=
  in_world (with_procs (filter (fun pr => p_pid pr ≠ n))).

Definition hang {A} : M A := fun s => (Hang, s).

(** How the machine reacts to one event. *)
Definition react (ev : event) : M unit :=
  match ev with
  | Tick => loop_body
  | Edge pin => on_gpio_thread (switch_vid pin)
  | ChildExit n => child_exit n
  | Throw e => raise e
  end.

(** The [while True] loop under a finite schedule of events; when the
    schedule is exhausted the loop is still running. *)
Fixpoint run_loop (evs : list event) : M unit :=
  match evs with
  | [] => hang
  | ev :: evs' => react ev ;;; run_loop evs'
  end.

Definition gpio_setup_in (pin : Z) : M unit := emit (GpioSetupIn pin).

Definition gpio_setup_out (pin : Z) : M unit := emit (GpioSetupOut pin).

Definition add_event_detect (pin : Z) (cb : handler) : M unit :=
  emit (GpioAddEventDetect pin cb _GPIO_BOUNCE_TIME).

(** Everything [start] does before it enters [try]. *)
Definition start_setup : M unit :=
  dbg <~ attr debug ;;
  when (negb dbg) (os_system "clear" ;;; os_system "tput civis") ;;;
  emit GpioSetmode ;;;
  pins <~ attr gpio_pins ;;
  for_ pins (fun io =>
    gpio_setup_in io.1 ;;;
    match io.2 with
    | Some out_pin => gpio_setup_out out_pin ;;; gpio_output out_pin false
    | None => ret tt
    end) ;;;
  sd <~ attr shutdown_pin ;;
  match sd with
  | Some n =>
      when (bool_decide (n ≠ 0%Z))
        (gpio_setup_in n ;;; add_event_detect n ShutdownNow)
  | None => ret tt
  end ;;;
  auto <~ attr autostart ;;
  when auto (
    img <~ attr splash ;;
    match img with
    | Some path =>
        h <~ popen ["fbi"; "--noverbose"; "-a"; path]%string false false ;;
        in_self (set_splashproc (Some h))
    | None =>
        ins <~ attr in_pins ;;
        first <~ getitem ins 0 ;;
        switch_vid first
    end) ;;;
  ins <~ attr in_pins ;;
  for_ ins (fun pin => add_event_detect pin SwitchVid).

Definition start (evs : list event) : M unit :=
  start_setup ;;;
  try_finally (run_loop evs) __del__.

(** The life of the object made by [VidLooper(...).start()]: [start] runs,
    and when the interpreter finalises the object ([finalised]) it calls
    [__del__] once more, ignoring what it raises. *)
Definition lifetime (finalised : bool) (evs : list event) : M unit :=
  fun s =>
    match start evs s with
    | (Hang, s1) => (Hang, s1)
    | (r, s1) => if finalised then (r, (__del__ s1).2) else (r, s1)
    end.

(** ** Construction *)

(** The part of the file system [__init__] looks at. *)
Record FS := {
  path_exists : string -> bool;
  listdir : string -> option (list string) }.

(** [str.rfind] of one character, [-1] when absent. *)
Fixpoint rfind_from (c : ascii) (l : list ascii) (i best : Z) : Z :=
  match l with
  | [] => best
  | x :: l' =>
      rfind_from c l' (i + 1)%Z (if bool_decide (x = c) then i else best)
  end.

Definition rfind (c : ascii) (l : list ascii) : Z := rfind_from c l 0%Z (-1)%Z.

(** [os.path.splitext(p)[1]]: the text from the last dot on, unless that
    dot sits before the last slash or only dots precede it in the name. *)
Definition splitext_ext (p : string) : string :=
  let l := list_ascii_of_string p in
  let sepIndex := rfind "/"%char l in
  let dotIndex := rfind "."%char l in
  if bool_decide (sepIndex < dotIndex)%Z then
    let name_start := Z.to_nat (sepIndex + 1) in
    let before_dot := take (Z.to_nat dotIndex - name_start) (drop name_start l) in
    if existsb (fun c => bool_decide (c ≠ "."%char)) before_dot
    then string_of_list_ascii (drop (Z.to_nat dotIndex) l)
    else ""%string
  else ""%string.

(** [os.path.join(a, b)] *)
Definition path_join (a b : string) : string :=
  match b with
  | String "/"%char _ => b
  | _ =>
      match last (list_ascii_of_string a) with
      | None => b
      | Some "/"%char => String.append a b
      | Some _ => String.append a (String "/"%char b)
      end
  end.

(** [sorted] on strings: insertion into code-point order. *)
Fixpoint insert_sorted (x : string) (l : list string) : list string :=
  match l with
  | [] => [x]
  | y :: l' => if String.leb x y then x :: l else y :: insert_sorted x l'
  end.

Definition sorted (l : list string) : list string :=
  foldr insert_sorted [] l.

Definition is_video (f : string) : bool :=
  bool_decide (splitext_ext f ∈ _VIDEO_EXTS).

(** [VidLooper.__init__].  [videos_arg] is the [videos] parameter itself:
    [None], or a (possibly empty) sequence. *)
Definition __init__ (fs : FS) (audio_arg : string)
    (autostart_arg restart_arg : bool) (video_dir : string)
    (videos_arg : option (list string))
    (gpio_arg : option (list (Z * option Z)))
    (loop_arg no_osd_arg : bool) (shutdown_arg : option Z)
    (splash_arg : option string) (debug_arg : bool) : exn + VidLooper :=
  let pins := default _GPIO_PIN_DEFAULT gpio_arg in
  let assembled :=
    match videos_arg with
    | Some (v :: vs) =>
        if forallb (path_exists fs) (v :: vs) then inr (v :: vs)
        else inl FileNotFoundError
    | _ =>
        match listdir fs video_dir with
        | None => inl FileNotFoundError
        | Some names =>
            match path_join video_dir <$> filter is_video (sorted names) with
            | [] => inl Exception
            | found => inr found
            end
        end
    end in
  match assembled with
  | inl e => inl e
  | inr vids =>
      match videos_arg with
      | None => inl TypeError
      | Some given =>
          if bool_decide (length given ≤ length pins)%nat then
            if bool_decide (audio_arg ∈ ["hdmi"; "local"; "both"]%string) then
              inr {| gpio_pins := pins; shutdown_pin := shutdown_arg;
                     videos := vids; debug := debug_arg; audio := audio_arg;
                     autostart := autostart_arg;
                     restart_on_press := restart_arg; loop := loop_arg;
                     no_osd := no_osd_arg; splash := splash_arg;
                     _splashproc := None; _active_vid := None; _p := None |}
            else inl AssertionError
          else inl AssertionError
      end
  end.

(** * Vocabulary of the statements *)

(** The levels after the first loop of [switch_vid pin], and the calls it
    makes, oldest first. *)
Definition write_levels (pins : list (Z * option Z)) (pin : Z)
    (m : gmap Z bool) : gmap Z bool :=
  foldl (fun acc io =>
           match io.2 with
           | Some out_pin => <[out_pin := bool_decide (io.1 = pin)]> acc
           | None => acc
           end) m pins.

Definition output_actions (pins : list (Z * option Z)) (pin : Z) : list action :=
  omap (fun io =>
          (fun out_pin => GpioOutput out_pin (bool_decide (io.1 = pin))) <$> io.2)
       pins.

(** The output pins of a pin dictionary, in order. *)
Definition out_pins (pins : list (Z * option Z)) : list Z := omap snd pins.

Definition killed_self (o : VidLooper) : VidLooper :=
  match _p o with
  | Some _ => set_p None o
  | None => o
  end.

Definition killed_procs (o : VidLooper) (ps : list proc) : list proc :=
  match _p o with
  | Some h => filter (fun pr => p_pgid pr ≠ getpgid h) ps
  | None => ps
  end.

(** The calls of [_kill_process], oldest first. *)
Definition kill_actions (o : VidLooper) : list action :=
  match _p o with
  | Some h => [Load F_p; Load F_p; Killpg (getpgid h) SIGINT; Store F_p]
  | None => [Load F_p]
  end.

(** The state in which [switch_vid pin] leaves the world when it stops
    right after the indicator loop plus the actions [extra] (newest
    first): levels rewritten, lock released. *)
Definition indicated (pin : Z) (o : VidLooper) (w : World)
    (extra : list action) : World :=
  {| levels := write_levels (gpio_pins o) pin (levels w);
     procs := procs w; next_pid := next_pid w; launches := launches w;
     locked := false;
     log := LockRelease :: extra
            ++ rev (output_actions (gpio_pins o) pin)
            ++ LockAcquire :: log w |}.

(** The handle a successful launch for [filename] returns. *)
Definition new_player (o : VidLooper) (w : World) (filename : string) : Popen :=
  {| pid := next_pid w; args := player_cmd o ++ [filename]; setsid := true |}.

Definition spawn_action (o : VidLooper) (filename : string)
    (child : option Z) : action :=
  Spawn (player_cmd o ++ [filename]) (negb (debug o)) true child.

(** Where [switch_vid pin] leaves the system when the launch of the
    player for [filename] raises, and when it succeeds. *)
Definition failed_launch (pin : Z) (o : VidLooper) (w : World)
    (filename : string) : Sys :=
  {| self := killed_self o;
     world :=
       {| levels := write_levels (gpio_pins o) pin (levels w);
          procs := killed_procs o (procs w);
          next_pid := next_pid w; launches := tail (launches w);
          locked := false;
          log := LockRelease :: spawn_action o filename None
                 :: rev (kill_actions o)
                 ++ Load F_active_vid
                 :: rev (output_actions (gpio_pins o) pin)
                 ++ LockAcquire :: log w |} |}.

Definition launched (pin : Z) (o : VidLooper) (w : World)
    (filename : string) : Sys :=
  {| self := set_active_vid (Some filename)
               (set_p (Some (new_player o w filename)) (killed_self o));
     world :=
       {| levels := write_levels (gpio_pins o) pin (levels w);
          procs := {| p_pid := next_pid w; p_pgid := next_pid w;
                      p_args := player_cmd o ++ [filename] |}
                   :: killed_procs o (procs w);
          next_pid := (next_pid w + 1)%Z; launches := tail (launches w);
          locked := false;
          log := LockRelease :: Store F_active_vid :: Store F_p
                 :: spawn_action o filename (Some (next_pid w))
                 :: rev (kill_actions o)
                 ++ Load F_active_vid
                 :: rev (output_actions (gpio_pins o) pin)
                 ++ LockAcquire :: log w |} |}.

(** The levels after the [# Reset LEDs] loop, and the calls it makes,
    oldest first. *)
Definition clear_levels (outs : list (option Z)) (m : gmap Z bool) : gmap Z bool :=
  foldl (fun acc o =>
           match o with
           | Some out_pin => <[out_pin := false]> acc
           | None => acc
           end) m outs.

Definition reset_actions (outs : list (option Z)) : list action :=
  omap (fun o => (fun out_pin => GpioOutput out_pin false) <$> o) outs.

(** The calls of one poll that finds the player [h] and resets, oldest
    first. *)
Definition poll_actions (o : VidLooper) (h : Popen) : list action :=
  [Sleep 500; Load F_p; Load F_p; Load F_p; Communicate (pid h);
   Load F_p; Load F_p]
  ++ reset_actions (gpio_pins o).*2
  ++ [Store F_active_vid; Store F_p].

(** A player is a child whose command line starts with the player binary. *)
Definition is_player (pr : proc) : Prop :=
  head (p_args pr) = Some "omxplayer"%string.

Global Instance is_player_dec (pr : proc) : Decision (is_player pr) :=
  decide (head (p_args pr) = Some "omxplayer"%string).

(** The players that have been started and not yet stopped. *)
Definition live_players (w : World) : list proc := filter is_player (procs w).

(** A sequence of [switch_vid] calls, each run to its end, whatever it
    returns or raises. *)
Fixpoint presses (pins : list Z) (s : Sys) : Sys :=
  match pins with
  | [] => s
  | pin :: pins' => presses pins' (switch_vid pin s).2
  end.

(** The state between two calls: the mutex is free, every running player
    leads its own process group and is the one [_p] points to, a stored
    handle was made with [os.setsid], and at most one player runs. *)
Record consistent (s : Sys) : Prop := {
  c_unlocked : locked (world s) = false;
  c_held : forall pr, pr ∈ live_players (world s) ->
             p_pgid pr = p_pid pr /\
             exists h, _p (self s) = Some h /\ pid h = p_pid pr;
  c_session : forall h, _p (self s) = Some h -> setsid h = true;
  c_single : (length (live_players (world s)) <= 1)%nat }.

(** ** A concrete installation

    Three buttons with their LEDs and two videos, as in the example of the
    specification plus one spare button; [power_on ls] is the world before
    anything has run, with [ls] deciding the fate of the launches. *)
Definition demo_looper : VidLooper :=
  {| gpio_pins := [(26, Some 21); (19, Some 20); (13, Some 16)]%Z;
     shutdown_pin := None;
     videos := ["a.mp4"; "b.mp4"]%string;
     debug := false; audio := "hdmi"%string; autostart := true;
     restart_on_press := false; loop := true; no_osd := false;
     splash := None; _splashproc := None; _active_vid := None; _p := None |}.

Definition power_on (ls : list bool) : World :=
  {| levels := ∅; procs := []; next_pid := 100%Z; launches := ls;
     locked := false; log := [] |}.

Definition demo (ls : list bool) : Sys :=
  {| self := demo_looper; world := power_on ls |}.

(** Video a playing; the same when the next launch is going to fail; and
    video a playing after the spare button 13 has been pressed. *)
Definition playing_a : Sys := presses [26]%Z (demo []).

Definition playing_a_next_fails : Sys := presses [26]%Z (demo [true; false]).

Definition playing_a_spare_lit : Sys := presses [26; 13]%Z (demo []).

(** Where one turn of the loop leaves the system when looping is off and
    the handle [h] is stored: the player has been waited for, the outputs
    are LOW and the player state is empty. *)
Definition polled (o : VidLooper) (w : World) (h : Popen) : Sys :=
  {| self := set_p None (set_active_vid None o);
     world :=
       {| levels := clear_levels (gpio_pins o).*2 (levels w);
          procs := filter (fun pr => p_pid pr ≠ pid h) (procs w);
          next_pid := next_pid w; launches := launches w;
          locked := locked w;
          log := rev (poll_actions o h) ++ log w |} |}.

(** The same installation with looping off, and its video a playing. *)
Definition single_play_looper : VidLooper :=
  {| gpio_pins := gpio_pins demo_looper;
     shutdown_pin := shutdown_pin demo_looper;
     videos := videos demo_looper;
     debug := debug demo_looper; audio := audio demo_looper;
     autostart := autostart demo_looper;
     restart_on_press := restart_on_press demo_looper;
     loop := false; no_osd := no_osd demo_looper;
     splash := splash demo_looper; _splashproc := None;
     _active_vid := None; _p := None |}.

Definition playing_a_once : Sys :=
  presses [26]%Z {| self := single_play_looper; world := power_on [] |}.

(** The calls of [__del__], oldest first, and where it leaves the
    system. *)
Definition splash_kill (o : VidLooper) : list action :=
  match _splashproc o with
  | Some h => [Killpg (getpgid h) SIGKILL]
  | None => []
  end.

Definition teardown_actions (o : VidLooper) : list action :=
  (if debug o then [] else [OsSystem "tput cnorm"])
  ++ [GpioCleanup] ++ kill_actions o ++ splash_kill o.

Definition torn_down (o : VidLooper) (w : World) : Sys :=
  {| self := killed_self o;
     world :=
       {| levels := ∅;
          procs := match _splashproc o with
                   | Some h => filter (fun pr => p_pgid pr ≠ getpgid h)
                                      (killed_procs o (procs w))
                   | None => killed_procs o (procs w)
                   end;
          next_pid := next_pid w; launches := launches w;
          locked := locked w;
          log := rev (teardown_actions o) ++ log w |} |}.

(** [__del__] calls [GPIO.cleanup] exactly once, and nothing else does:
    counting these calls counts the runs of the teardown. *)
Definition is_cleanup (a : action) : bool :=
  match a with
  | GpioCleanup => true
  | _ => false
  end.

Definition teardowns (s : Sys) : nat :=
  length (filter (fun a => is_cleanup a = true) (log (world s))).

Definition is_kill (a : action) : bool :=
  match a with
  | Killpg _ _ => true
  | _ => false
  end.

(** [emits P m]: whatever the state, [m] only adds to the log, and only
    actions that satisfy [P]. *)
Definition emits (P : action -> Prop) {A} (m : M A) : Prop :=
  forall s, exists t,
    log (world (m s).2) = t ++ log (world s) /\ Forall P t.

(** The lock discipline on a stretch of history, oldest first: [held]
    tells whether the acting thread holds the mutex, and every read or
    write of the player state must happen while it does. *)
Fixpoint guarded (held : bool) (t : list action) : bool :=
  match t with
  | [] => true
  | LockAcquire :: t' => guarded true t'
  | LockRelease :: t' => guarded false t'
  | Load _ :: t' => held && guarded held t'
  | Store _ :: t' => held && guarded held t'
  | _ :: t' => guarded held t'
  end.

(** A directory holding five videos and a text file. *)
Definition five_videos : FS :=
  {| path_exists := fun _ => true;
     listdir := fun d =>
       if bool_decide (d = "/videos"%string)
       then Some ["e.mp4"; "b.mkv"; "notes.txt"; "a.mp4"; "d.mov"; "c.avi"]%string
       else None |}.

(** At most one player runs, and a player that runs is the one whose
    handle is stored in [_p]. *)
Definition one_player_at_most (s : Sys) : Prop :=
  (length (live_players (world s)) <= 1)%nat /\
  forall pr, pr ∈ live_players (world s) ->
    exists h, _p (self s) = Some h /\ pid h = p_pid pr.

(** * The command line *)

From Stdlib Require Import DecimalString.

(** [str.split(sep)] for a separator of one character: the fields between
    the separators, at least one. *)
Fixpoint split_on (sep : ascii) (s : string) : list string :=
  match s with
  | EmptyString => [EmptyString]
  | String c s' =>
      if bool_decide (c = sep) then EmptyString :: split_on sep s'
      else match split_on sep s' with
           | f :: fs => String c f :: fs
           | [] => [String c EmptyString]
           end
  end.

(** The body of the loop of [_GpioParser.__call__] for one item of the
    list: [gpio_dict] is the dictionary built so far.  [int] is Python's
    [int] on strings, [None] standing for its [ValueError].  A key that
    passed the duplicate test is new, so the assignment appends it. *)
Definition parse_pair (int : string -> option Z)
    (gpio_dict : list (Z * option Z)) (pair : string)
    : exn + list (Z * option Z) :=
  let pair_split := split_on ":"%char pair in
  if bool_decide (0 = length pair_split)%nat
     && bool_decide (2 < length pair_split)%nat
  then inl ValueError
  else
    match pair_split !! 0%nat with
    | None => inl IndexError
    | Some first =>
        match int first with
        | None => inl ValueError
        | Some in_pin =>
            let parsed_out :=
              match pair_split !! 1%nat with
              | None => inr None
              | Some second =>
                  match int second with
                  | Some out_pin => inr (Some out_pin)
                  | None => inl ValueError
                  end
              end in
            match parsed_out with
            | inl e => inl e
            | inr out_pin =>
                if bool_decide (in_pin ∈ gpio_dict.*1) then inl ValueError
                else inr (gpio_dict ++ [(in_pin, out_pin)])
            end
        end
    end.

Fixpoint parse_pairs (int : string -> option Z) (pin_pairs : list string)
    (gpio_dict : list (Z * option Z)) : exn + list (Z * option Z) :=
  match pin_pairs with
  | [] => inr gpio_dict
  | item :: rest =>
      match parse_pair int gpio_dict item with
      | inl e => inl e
      | inr gpio_dict' => parse_pairs int rest gpio_dict'
      end
  end.

(** [_GpioParser.__call__]: the dictionary stored in the namespace, or the
    exception raised. *)
Definition _GpioParser (int : string -> option Z) (values : string)
    : exn + list (Z * option Z) :=
  parse_pairs int (split_on ","%char values) [].

(** [int] on plain decimal numerals, and the numeral of an integer.
    Python's [int] accepts more (white space around, underscores between
    digits, a plus sign), so the statements below take [int] as a
    parameter; this instance serves in examples. *)
Definition int_decimal (s : string) : option Z :=
  Z.of_int <$> NilZero.int_of_string s.

Definition str_decimal (z : Z) : string :=
  NilZero.string_of_int (Z.to_int z).

(** The text of a pin dictionary: [in:out] or [in] for each binding,
    joined by commas. *)
Definition render_pair (str : Z -> string) (io : Z * option Z) : string :=
  match io.2 with
  | Some out_pin =>
      String.append (str io.1) (String ":"%char (str out_pin))
  | None => str io.1
  end.

Fixpoint join_with (sep : ascii) (l : list string) : string :=
  match l with
  | [] => EmptyString
  | [x] => x
  | x :: l' => String.append x (String sep (join_with sep l'))
  end.

Definition render_pins (str : Z -> string) (d : list (Z * option Z)) : string :=
  join_with ","%char (render_pair str <$> d).

(** The characters of a string. *)
Definition chars (s : string) : list ascii := list_ascii_of_string s.

(** The first two fields of an item, the only ones the parser reads. *)
Definition item_fields (pair : string) : string * option string :=
  match split_on ":"%char pair with
  | first :: second :: _ => (first, Some second)
  | first :: [] => (first, None)
  | [] => (EmptyString, None)
  end.

(** What one item contributes: its binding, when both fields parse. *)
Definition item_binding (int : string -> option Z) (pair : string)
    : option (Z * option Z) :=
  match item_fields pair with
  | (first, Some second) =>
      in_pin ← int first; out_pin ← int second; Some (in_pin, Some out_pin)
  | (first, None) => in_pin ← int first; Some (in_pin, None)
  end.

(** Every pin number a dictionary mentions. *)
Definition pin_numbers (d : list (Z * option Z)) : list Z :=
  d.*1 ++ omap snd d.

(** A number whose numeral reads back as itself and holds no separator. *)
Definition writable (int : string -> option Z) (str : Z -> string) (z : Z)
    : Prop :=
  int (str z) = Some z /\
  (":"%char ∉ chars (str z)) /\
  (","%char ∉ chars (str z)).

(** * Vocabulary for [start] *)

(** The calls of the GPIO loop of [start] for a pin dictionary, of its
    shutdown-pin block, and of everything before the autostart, oldest
    first. *)
Definition setup_actions (pins : list (Z * option Z)) : list action :=
  flat_map (fun io =>
              GpioSetupIn io.1 ::
              match io.2 with
              | Some out_pin => [GpioSetupOut out_pin; GpioOutput out_pin false]
              | None => []
              end) pins.

Definition shutdown_actions (o : VidLooper) : list action :=
  match shutdown_pin o with
  | Some n =>
      if bool_decide (n ≠ 0%Z)
      then [GpioSetupIn n; GpioAddEventDetect n ShutdownNow _GPIO_BOUNCE_TIME]
      else []
  | None => []
  end.

Definition prelude_actions (o : VidLooper) : list action :=
  (if debug o then [] else [OsSystem "clear"; OsSystem "tput civis"])
  ++ [GpioSetmode] ++ setup_actions (gpio_pins o) ++ shutdown_actions o.

(** The system when [start] reaches [if self.autostart]. *)
Definition wired (o : VidLooper) (w : World) : Sys :=
  {| self := o;
     world :=
       {| levels := clear_levels (gpio_pins o).*2 (levels w);
          procs := procs w; next_pid := next_pid w; launches := launches w;
          locked := locked w;
          log := rev (prelude_actions o) ++ log w |} |}.

(** The body of [if self.autostart], and the loop that registers the
    callbacks, as [start] has them. *)
Definition autostart_step : M unit :=
  img <~ attr splash ;;
  match img with
  | Some path =>
      h <~ popen ["fbi"; "--noverbose"; "-a"; path]%string false false ;;
      in_self (set_splashproc (Some h))
  | None =>
      ins <~ attr in_pins ;;
      first <~ getitem ins 0 ;;
      switch_vid first
  end.

Definition register_inputs : M unit :=
  ins <~ attr in_pins ;;
  for_ ins (fun pin => add_event_detect pin SwitchVid).

Definition registrations (o : VidLooper) : list action :=
  (fun pin => GpioAddEventDetect pin SwitchVid _GPIO_BOUNCE_TIME) <$> in_pins o.

(** The handle of the splash process that [start] launches for [path]. *)
Definition splash_handle (w : World) (path : string) : Popen :=
  {| pid := next_pid w; args := ["fbi"; "--noverbose"; "-a"; path]%string;
     setsid := false |}.

Definition is_shutdown_registration (a : action) : bool :=
  match a with
  | GpioAddEventDetect _ ShutdownNow _ => true
  | _ => false
  end.

(** [keeps I m]: from a state that satisfies [I], [m] ends in a state that
    satisfies [I], whether it returns, raises or hangs. *)
Definition keeps (I : Sys -> Prop) {A} (m : M A) : Prop :=
  forall s, I s -> I (m s).2.

Definition set_autostart (v : bool) (o : VidLooper) : VidLooper :=
  {| gpio_pins := gpio_pins o; shutdown_pin := shutdown_pin o;
     videos := videos o; debug := debug o; audio := audio o;
     autostart := v; restart_on_press := restart_on_press o;
     loop := loop o; no_osd := no_osd o; splash := splash o;
     _splashproc := _splashproc o; _active_vid := _active_vid o;
     _p := _p o |}.

Definition set_splash (v : option string) (o : VidLooper) : VidLooper :=
  {| gpio_pins := gpio_pins o; shutdown_pin := shutdown_pin o;
     videos := videos o; debug := debug o; audio := audio o;
     autostart := autostart o; restart_on_press := restart_on_press o;
     loop := loop o; no_osd := no_osd o; splash := v;
     _splashproc := _splashproc o; _active_vid := _active_vid o;
     _p := _p o |}.

Definition set_gpio_pins (v : list (Z * option Z)) (o : VidLooper) : VidLooper :=
  {| gpio_pins := v; shutdown_pin := shutdown_pin o;
     videos := videos o; debug := debug o; audio := audio o;
     autostart := autostart o; restart_on_press := restart_on_press o;
     loop := loop o; no_osd := no_osd o; splash := splash o;
     _splashproc := _splashproc o; _active_vid := _active_vid o;
     _p := _p o |}.

Definition set_shutdown_pin (v : option Z) (o : VidLooper) : VidLooper :=
  {| gpio_pins := gpio_pins o; shutdown_pin := v;
     videos := videos o; debug := debug o; audio := audio o;
     autostart := autostart o; restart_on_press := restart_on_press o;
     loop := loop o; no_osd := no_osd o; splash := splash o;
     _splashproc := _splashproc o; _active_vid := _active_vid o;
     _p := _p o |}.

Definition set_restart_on_press (v : bool) (o : VidLooper) : VidLooper :=
  {| gpio_pins := gpio_pins o; shutdown_pin := shutdown_pin o;
     videos := videos o; debug := debug o; audio := audio o;
     autostart := autostart o; restart_on_press := v;
     loop := loop o; no_osd := no_osd o; splash := splash o;
     _splashproc := _splashproc o; _active_vid := _active_vid o;
     _p := _p o |}.

(** Where [start] stands at the door of its loop after an autostart with
    the splash image [path]. *)
Definition splashed (o : VidLooper) (w : World) (path : string) : Sys :=
  {| self := set_splashproc (Some (splash_handle w path)) o;
     world :=
       {| levels := clear_levels (gpio_pins o).*2 (levels w);
          procs := {| p_pid := next_pid w; p_pgid := own_pgid;
                      p_args := ["fbi"; "--noverbose"; "-a"; path]%string |}
                   :: procs w;
          next_pid := (next_pid w + 1)%Z; launches := tail (launches w);
          locked := locked w;
          log := rev (registrations o)
                 ++ Spawn ["fbi"; "--noverbose"; "-a"; path]%string false false
                          (Some (next_pid w))
                 :: rev (prelude_actions o) ++ log w |} |}.

(** The demo installation with [restart_on_press] on, video a playing. *)
Definition playing_a_restartable : Sys :=
  presses [26]%Z {| self := set_restart_on_press true demo_looper;
                    world := power_on [] |}.

(** * A press while the poll waits *)

(** The first half of the poll up to the point where [communicate]
    blocks: the three reads of [_p], giving the pid that is remembered and
    the handle whose end is awaited. *)
Definition poll_enter : M (Z * option Popen) :=
  p <~ load_p ;;
  if bool_decide (is_Some p) then
    n <~ load_p_pid ;;
    q <~ load_p ;;
    match q with
    | Some h => ret (n, Some h)
    | None => raise AttributeError
    end
  else ret ((-1)%Z, None).

(** The wait ends: [communicate] returns for the handle it was called
    on, its child having exited. *)
Definition poll_leave (q : option Popen) : M unit :=
  match q with
  | Some h => communicate h
  | None => ret tt
  end.

(** One poll during whose wait the GPIO thread runs [switch_vid pin] from
    its beginning to its end. *)
Definition poll_with_press (pin : Z) : M unit :=
  r <~ poll_enter ;;
  on_gpio_thread (switch_vid pin) ;;;
  poll_leave r.2 ;;;
  poll_reset r.1.

(** * The countdown of [main] *)

(** What the countdown loop does to the terminal and the clock. *)
Inductive console :=
  | Announce (seconds : Z)
  | Flush
  | SleepSecond.

(** [while countdown > 0: ...; countdown -= 1], run for at most [fuel]
    turns: what it did, oldest first, and the counter when it left the
    loop, [None] if it was still counting when the fuel ran out. *)
Fixpoint countdown_loop (fuel : nat) (countdown : Z)
    : list console * option Z :=
  if bool_decide (0 < countdown)%Z then
    match fuel with
    | O => ([], None)
    | S fuel' =>
        let (rest, final) := countdown_loop fuel' (countdown - 1)%Z in
        (Announce countdown :: Flush :: SleepSecond :: rest, final)
    end
  else ([], Some countdown).

(** The numbers [n], [n - 1], ..., [1]. *)
Definition descending (n : Z) : list Z :=
  (fun i => (n - Z.of_nat i)%Z) <$> seq 0 (Z.to_nat n).

(** * What the methods compute *)

(** ** The indicator loop *)

Lemma for_outputs_run pins pin o w :
  for_ pins (output_step pin) {| self := o; world := w |} =
  (Ret tt, {| self := o;
              world := {| levels := write_levels pins pin (levels w);
                          procs := procs w; next_pid := next_pid w;
                          launches := launches w; locked := locked w;
                          log := rev (output_actions pins pin) ++ log w |} |}).
Proof.
  revert w.
  induction pins as [|[i [out|]] pins IH]; intros [lv ps np la lk lg].
  - reflexivity.
  - cbn [for_]. unfold bind at 1. cbn -[for_ write_levels output_actions].
    rewrite IH. cbn. rewrite <- app_assoc. reflexivity.
  - cbn [for_]. unfold bind at 1. cbn -[for_ write_levels output_actions].
    rewrite IH. reflexivity.
Qed.

Lemma write_levels_other pins pin m out :
  out ∉ out_pins pins -> write_levels pins pin m !! out = m !! out.
Proof.
  revert m. induction pins as [|[i [o'|]] pins IH]; intros m Hout; cbn in *.
  - reflexivity.
  - apply not_elem_of_cons in Hout as [Hne Hout].
    unfold write_levels in *. cbn. rewrite IH by (exact Hout).
    apply lookup_insert_ne. congruence.
  - unfold write_levels in *. cbn. apply IH, Hout.
Qed.

(** With no output pin shared, each configured output ends at the level
    its own input pin asks for. *)
Lemma write_levels_lookup pins pin m i out :
  NoDup (out_pins pins) ->
  (i, Some out) ∈ pins ->
  write_levels pins pin m !! out = Some (bool_decide (i = pin)).
Proof.
  revert m. induction pins as [|[i' o'] pins IH]; intros m Hnd Hin.
  - apply elem_of_nil in Hin as [].
  - apply elem_of_cons in Hin as [Heq|Hin].
    + inversion Heq; subst i' o'. cbn in Hnd. apply NoDup_cons in Hnd as [Hfresh _].
      change (write_levels pins pin (<[out := bool_decide (i = pin)]> m) !! out
              = Some (bool_decide (i = pin))).
      rewrite write_levels_other by (exact Hfresh). apply lookup_insert_eq.
    + destruct o' as [o'|]; cbn in Hnd.
      * apply NoDup_cons in Hnd as [_ Hnd].
        change (write_levels pins pin (<[o' := bool_decide (i' = pin)]> m) !! out
                = Some (bool_decide (i = pin))).
        apply IH; assumption.
      * change (write_levels pins pin m !! out = Some (bool_decide (i = pin))).
        apply IH; assumption.
Qed.

(** When no input pin of the dictionary is [pin], every write is LOW, shared
    outputs or not. *)
Lemma write_levels_all_low pins pin m i out :
  pin ∉ pins.*1 ->
  (i, Some out) ∈ pins ->
  write_levels pins pin m !! out = Some false.
Proof.
  revert m i. induction pins as [|[i' o'] pins IH]; intros m i Hpin Hin.
  - apply elem_of_nil in Hin as [].
  - cbn in Hpin. apply not_elem_of_cons in Hpin as [Hne Hpin].
    destruct (decide (out ∈ out_pins pins)) as [Hlater|Hlater].
    + apply list_elem_of_omap in Hlater as [[i2 o2] [Hin2 Ho2]].
      cbn in Ho2. subst o2.
      destruct o' as [o'|];
        [change (write_levels pins pin (<[o' := bool_decide (i' = pin)]> m) !! out
                 = Some false)
        |change (write_levels pins pin m !! out = Some false)];
        eapply IH; eassumption.
    + apply elem_of_cons in Hin as [Heq|Hin].
      * inversion Heq; subst i' o'.
        change (write_levels pins pin (<[out := bool_decide (i = pin)]> m) !! out
                = Some false).
        rewrite write_levels_other by (exact Hlater).
        rewrite lookup_insert_eq. f_equal. apply bool_decide_eq_false_2. congruence.
      * exfalso. apply Hlater. apply list_elem_of_omap.
        exists (i, Some out). split; [exact Hin|reflexivity].
Qed.

(** Levels that already show [pin] are left as they are. *)
Lemma write_levels_id pins pin m :
  (forall i out, (i, Some out) ∈ pins -> m !! out = Some (bool_decide (i = pin))) ->
  write_levels pins pin m = m.
Proof.
  revert m. induction pins as [|[i [o'|]] pins IH]; intros m Hm.
  - reflexivity.
  - change (write_levels pins pin (<[o' := bool_decide (i = pin)]> m) = m).
    rewrite insert_id by (apply Hm; left).
    apply IH. intros i2 out2 Hin. apply Hm. right. exact Hin.
  - change (write_levels pins pin m = m).
    apply IH. intros i2 out2 Hin. apply Hm. right. exact Hin.
Qed.

Lemma output_actions_asserts pins pin out :
  (pin, Some out) ∈ pins -> GpioOutput out true ∈ output_actions pins pin.
Proof.
  intros Hin. apply list_elem_of_omap. exists (pin, Some out).
  split; [exact Hin|]. cbn. rewrite bool_decide_eq_true_2 by reflexivity.
  reflexivity.
Qed.

(** ** [_kill_process] *)

Lemma kill_process_run o w :
  _kill_process {| self := o; world := w |} =
  (Ret tt, {| self := killed_self o;
              world := {| levels := levels w;
                          procs := killed_procs o (procs w);
                          next_pid := next_pid w; launches := launches w;
                          locked := locked w;
                          log := rev (kill_actions o) ++ log w |} |}).
Proof.
  destruct w as [lv ps np la lk lg].
  unfold _kill_process, killed_self, killed_procs, kill_actions, load_p,
    killpg, store_p, emit, in_world, in_self, bind, attr, when.
  cbn [self world]. destruct (_p o) as [h|] eqn:Hp.
  - rewrite bool_decide_eq_true_2 by discriminate.
    cbn [self world]. rewrite Hp. reflexivity.
  - rewrite bool_decide_eq_false_2 by (intros H; apply H; reflexivity).
    reflexivity.
Qed.

Lemma killed_self_p o : _p (killed_self o) = None.
Proof. unfold killed_self. destruct (_p o) eqn:E; [reflexivity|exact E]. Qed.

Lemma killed_self_active o : _active_vid (killed_self o) = _active_vid o.
Proof. unfold killed_self. destruct (_p o); reflexivity. Qed.

Lemma killed_self_idle o : _p o = None -> killed_self o = o.
Proof. unfold killed_self. intros ->. reflexivity. Qed.

(** ** The five ways through [switch_vid] *)

Ltac enter_switch_vid :=
  unfold switch_vid, with_mutex, acquire, update_outputs, try_finally, bind, attr;
  cbn [locked world self with_locked with_log emit in_world fst snd];
  rewrite for_outputs_run;
  cbn [levels procs next_pid launches locked log world self].

Lemma switch_vid_unknown pin o w :
  locked w = false ->
  index_of (in_pins o) pin = None ->
  switch_vid pin {| self := o; world := w |} =
  (Raise ValueError, {| self := o; world := indicated pin o w [] |}).
Proof.
  intros Hl Hi. destruct w as [lv ps np la lk lg]. cbn in Hl. subst lk.
  enter_switch_vid. unfold tuple_index. rewrite Hi. reflexivity.
Qed.

Lemma switch_vid_out_of_range pin o w k :
  locked w = false ->
  index_of (in_pins o) pin = Some k ->
  videos o !! k = None ->
  switch_vid pin {| self := o; world := w |} =
  (Raise IndexError, {| self := o; world := indicated pin o w [] |}).
Proof.
  intros Hl Hi Hv. destruct w as [lv ps np la lk lg]. cbn in Hl. subst lk.
  enter_switch_vid. unfold tuple_index, getitem. rewrite Hi. cbn.
  rewrite Hv. reflexivity.
Qed.

Lemma switch_vid_same pin o w k filename :
  locked w = false ->
  index_of (in_pins o) pin = Some k ->
  videos o !! k = Some filename ->
  _active_vid o = Some filename ->
  restart_on_press o = false ->
  switch_vid pin {| self := o; world := w |} =
  (Ret tt, {| self := o; world := indicated pin o w [Load F_active_vid] |}).
Proof.
  intros Hl Hi Hv Ha Hr. destruct w as [lv ps np la lk lg]. cbn in Hl. subst lk.
  enter_switch_vid. unfold tuple_index, getitem. rewrite Hi. cbn.
  rewrite Hv. cbn. rewrite Ha, Hr.
  rewrite bool_decide_eq_false_2 by (intros H; apply H; reflexivity).
  reflexivity.
Qed.

Lemma switch_vid_launch_failed pin o w k filename :
  locked w = false ->
  index_of (in_pins o) pin = Some k ->
  videos o !! k = Some filename ->
  bool_decide (Some filename ≠ _active_vid o) || restart_on_press o = true ->
  head (launches w) = Some false ->
  switch_vid pin {| self := o; world := w |} =
  (Raise OSError, failed_launch pin o w filename).
Proof.
  intros Hl Hi Hv Hgo Hla. destruct w as [lv ps np la lk lg].
  cbn in Hl, Hla. subst lk. destruct la as [|[|] la]; try discriminate Hla.
  enter_switch_vid. unfold tuple_index, getitem. rewrite Hi.
  cbn -[_kill_process popen]. rewrite Hv. cbn -[_kill_process popen].
  rewrite Hgo, kill_process_run. cbn.
  unfold failed_launch, spawn_action, player_cmd, killed_self.
  destruct (_p o); reflexivity.
Qed.

Lemma switch_vid_launched pin o w k filename :
  locked w = false ->
  index_of (in_pins o) pin = Some k ->
  videos o !! k = Some filename ->
  bool_decide (Some filename ≠ _active_vid o) || restart_on_press o = true ->
  head (launches w) ≠ Some false ->
  switch_vid pin {| self := o; world := w |} =
  (Ret tt, launched pin o w filename).
Proof.
  intros Hl Hi Hv Hgo Hla. destruct w as [lv ps np la lk lg].
  cbn in Hl, Hla. subst lk.
  enter_switch_vid. unfold tuple_index, getitem. rewrite Hi.
  cbn -[_kill_process popen]. rewrite Hv. cbn -[_kill_process popen].
  rewrite Hgo, kill_process_run.
  destruct la as [|[|] la]; [| |exfalso; apply Hla; reflexivity];
    cbn; unfold launched, spawn_action, new_player, player_cmd, killed_self;
    destruct (_p o); reflexivity.
Qed.

(** Every call of [switch_vid] on a free mutex takes one of the five
    ways; a property of the result is proved by proving it on each. *)
Lemma switch_vid_cases pin o w (P : outcome unit * Sys -> Prop) :
  locked w = false ->
  (index_of (in_pins o) pin = None ->
   P (Raise ValueError, {| self := o; world := indicated pin o w [] |})) ->
  (forall k, index_of (in_pins o) pin = Some k -> videos o !! k = None ->
   P (Raise IndexError, {| self := o; world := indicated pin o w [] |})) ->
  (forall k filename,
     index_of (in_pins o) pin = Some k -> videos o !! k = Some filename ->
     _active_vid o = Some filename -> restart_on_press o = false ->
   P (Ret tt, {| self := o; world := indicated pin o w [Load F_active_vid] |})) ->
  (forall k filename,
     index_of (in_pins o) pin = Some k -> videos o !! k = Some filename ->
     bool_decide (Some filename ≠ _active_vid o) || restart_on_press o = true ->
     head (launches w) = Some false ->
   P (Raise OSError, failed_launch pin o w filename)) ->
  (forall k filename,
     index_of (in_pins o) pin = Some k -> videos o !! k = Some filename ->
     bool_decide (Some filename ≠ _active_vid o) || restart_on_press o = true ->
     head (launches w) ≠ Some false ->
   P (Ret tt, launched pin o w filename)) ->
  P (switch_vid pin {| self := o; world := w |}).
Proof.
  intros Hl Hunknown Hrange Hsame Hfail Hok.
  destruct (index_of (in_pins o) pin) as [k|] eqn:Hi;
    [|rewrite switch_vid_unknown by assumption; auto].
  destruct (videos o !! k) as [filename|] eqn:Hv;
    [|rewrite (switch_vid_out_of_range pin o w k) by assumption; eauto].
  destruct (bool_decide (Some filename ≠ _active_vid o) || restart_on_press o)
    eqn:Hgo.
  - destruct (decide (head (launches w) = Some false)) as [Hla|Hla].
    + rewrite (switch_vid_launch_failed pin o w k filename) by assumption. eauto.
    + rewrite (switch_vid_launched pin o w k filename) by assumption. eauto.
  - apply orb_false_iff in Hgo as [Hne Hr].
    apply bool_decide_eq_false in Hne. apply dec_stable in Hne.
    rewrite (switch_vid_same pin o w k filename) by (symmetry in Hne; assumption || congruence).
    eauto.
Qed.

(** The walk-through of the specification: button 26 starts video a and
    lights LED 21; button 19 then stops that player, starts video b and
    lights LED 20 instead. *)
Example two_presses :
  history (presses [26; 19]%Z (demo [])) =
  [LockAcquire; GpioOutput 21 true; GpioOutput 20 false; GpioOutput 16 false;
   Load F_active_vid; Load F_p;
   Spawn ["omxplayer"; "-b"; "-o"; "hdmi"; "--loop"; "a.mp4"]%string
         true true (Some 100%Z);
   Store F_p; Store F_active_vid; LockRelease;
   LockAcquire; GpioOutput 21 false; GpioOutput 20 true; GpioOutput 16 false;
   Load F_active_vid; Load F_p; Load F_p; Killpg 100 SIGINT; Store F_p;
   Spawn ["omxplayer"; "-b"; "-o"; "hdmi"; "--loop"; "b.mp4"]%string
         true true (Some 101%Z);
   Store F_p; Store F_active_vid; LockRelease] /\
  _active_vid (self (presses [26; 19]%Z (demo []))) = Some "b.mp4"%string /\
  pid <$> _p (self (presses [26; 19]%Z (demo []))) = Some 101%Z /\
  p_pid <$> procs (world (presses [26; 19]%Z (demo []))) = [101%Z].
Proof. vm_compute. repeat split; reflexivity. Qed.

(** ** One player at a time *)

Lemma live_players_filtered (Q : proc -> Prop) `{!forall pr, Decision (Q pr)}
    (ps : list proc) :
  filter is_player (filter Q ps) = filter Q (filter is_player ps).
Proof.
  rewrite !list_filter_filter. apply list_filter_iff. intros pr. tauto.
Qed.

(** Signalling the group of the stored handle leaves no player running. *)
Lemma consistent_killed s :
  consistent s ->
  filter is_player (killed_procs (self s) (procs (world s))) = [].
Proof.
  intros [_ Hheld Hsess _]. apply elem_of_nil_inv. intros pr Hpr.
  unfold killed_procs in Hpr. destruct (_p (self s)) as [h|] eqn:Hp.
  - apply list_elem_of_filter in Hpr as [Hplayer Hpr].
    apply list_elem_of_filter in Hpr as [Hgroup Hpr].
    destruct (Hheld pr) as [Hlead [h' [Hh' Hpid]]].
    { apply list_elem_of_filter. split; assumption. }
    inversion Hh'; subst h'. apply Hgroup.
    unfold getpgid. rewrite (Hsess h eq_refl). congruence.
  - destruct (Hheld pr Hpr) as [_ [h' [Hh' _]]]. discriminate Hh'.
Qed.

Lemma switch_vid_consistent pin s :
  consistent s ->
  (switch_vid pin s).1 ≠ Hang /\ consistent (switch_vid pin s).2.
Proof.
  intros Hc. pose proof Hc as [Hl Hheld Hsess Hone].
  destruct s as [o w]. cbn [self world] in *.
  apply (switch_vid_cases pin o w
           (fun r => r.1 ≠ Hang /\ consistent r.2) Hl).
  - intros _. split; [discriminate|]. split; first [reflexivity|assumption].
  - intros k _ _. split; [discriminate|].
    split; first [reflexivity|assumption].
  - intros k filename _ _ _ _. split; [discriminate|].
    split; first [reflexivity|assumption].
  - intros k filename _ _ _ _. split; [discriminate|].
    pose proof (consistent_killed _ Hc) as Hnone. cbn [self world] in Hnone.
    split; unfold live_players, failed_launch; cbn [fst snd self world procs].
    + reflexivity.
    + rewrite Hnone. intros pr Hpr. apply elem_of_nil in Hpr as [].
    + intros h. rewrite killed_self_p. discriminate.
    + rewrite Hnone. cbn. lia.
  - intros k filename _ _ _ _. split; [discriminate|].
    pose proof (consistent_killed _ Hc) as Hnone. cbn [self world] in Hnone.
    cbn [fst snd].
    assert (Hlive : live_players (world (launched pin o w filename)) =
                    [{| p_pid := next_pid w; p_pgid := next_pid w;
                        p_args := player_cmd o ++ [filename] |}]).
    { unfold live_players. cbn [world launched procs].
      rewrite filter_cons_True by reflexivity. rewrite Hnone. reflexivity. }
    split.
    + reflexivity.
    + rewrite Hlive. intros pr Hpr. apply list_elem_of_singleton in Hpr as ->.
      split; [reflexivity|]. eexists. split; reflexivity.
    + cbn. intros h [= <-]. reflexivity.
    + rewrite Hlive. cbn. lia.
Qed.

Lemma presses_consistent pins s :
  consistent s -> consistent (presses pins s).
Proof.
  revert s. induction pins as [|pin pins IH]; intros s Hc; [exact Hc|].
  cbn [presses]. apply IH. apply switch_vid_consistent. exact Hc.
Qed.

Lemma fresh_consistent o w :
  _p o = None -> live_players w = [] -> locked w = false ->
  consistent {| self := o; world := w |}.
Proof.
  intros Hp Hnone Hl. split; cbn [self world].
  - exact Hl.
  - rewrite Hnone. intros pr Hpr. apply elem_of_nil in Hpr as [].
  - rewrite Hp. discriminate.
  - rewrite Hnone. cbn. lia.
Qed.

(** ** The indicator outputs *)

Lemma switch_vid_locked pin s :
  locked (world s) = true -> switch_vid pin s = (Hang, s).
Proof.
  intros Hl. unfold switch_vid, with_mutex, acquire, bind. rewrite Hl.
  reflexivity.
Qed.

Lemma index_of_None l x : index_of l x = None <-> x ∉ l.
Proof.
  induction l as [|y l IH]; cbn.
  - split; [intros _; apply not_elem_of_nil|reflexivity].
  - rewrite not_elem_of_cons. case_bool_decide as Hy.
    + split; [discriminate|]. intros [Hne _]. congruence.
    + destruct (index_of l x); cbn.
      * split; [discriminate|]. intros [_ Hx]. apply IH in Hx. discriminate.
      * split; [|reflexivity]. intros _. split; [congruence|].
        apply IH. reflexivity.
Qed.

Lemma index_of_Some l x k : index_of l x = Some k -> l !! k = Some x.
Proof.
  revert k. induction l as [|y l IH]; intros k; cbn; [discriminate|].
  case_bool_decide as Hy.
  - intros [= <-]. cbn. congruence.
  - destruct (index_of l x) as [j|]; cbn; [|discriminate].
    intros [= <-]. cbn. apply IH. reflexivity.
Qed.

(** C2: after a [switch_vid pin] that ran to completion, on a dictionary
    in which no output pin is shared, each configured output is HIGH if
    its input pin is [pin] and LOW otherwise; such a call happens only for
    a bound pin, and it leaves the dictionary as it was. *)
Theorem C2_exclusive_indicator (pin : Z) (s s' : Sys) :
  NoDup (out_pins (gpio_pins (self s))) ->
  switch_vid pin s = (Ret tt, s') ->
  pin ∈ in_pins (self s) /\
  gpio_pins (self s') = gpio_pins (self s) /\
  forall i out, (i, Some out) ∈ gpio_pins (self s) ->
    levels (world s') !! out = Some (bool_decide (i = pin)).
Proof.
  intros Hnd Hrun. destruct (locked (world s)) eqn:Hl.
  { rewrite switch_vid_locked in Hrun by (exact Hl). discriminate Hrun. }
  destruct s as [o w]. cbn [self world] in *. revert Hrun.
  apply (switch_vid_cases pin o w
           (fun r => r = (Ret tt, s') -> _) Hl); try discriminate.
  - intros k filename Hi _ _ _ [= <-]. cbn [self world indicated levels].
    split; [|split; [reflexivity|]].
    + apply index_of_Some, list_elem_of_lookup_2 in Hi. exact Hi.
    + intros i out Hin. apply write_levels_lookup; assumption.
  - intros k filename Hi _ _ _ [= <-].
    split; [|split].
    + apply index_of_Some, list_elem_of_lookup_2 in Hi. exact Hi.
    + unfold launched, killed_self. cbn. destruct (_p o); reflexivity.
    + intros i out Hin. apply write_levels_lookup; assumption.
Qed.

Lemma C2_exclusive_indicator_witness :
  NoDup (out_pins (gpio_pins (self (demo [])))) /\
  switch_vid 19 (demo []) = (Ret tt, (switch_vid 19 (demo [])).2) /\
  (19%Z ∈ in_pins (self (demo [])) /\
   gpio_pins (self (switch_vid 19 (demo [])).2) = gpio_pins (self (demo [])) /\
   forall i out, (i, Some out) ∈ gpio_pins (self (demo [])) ->
     levels (world (switch_vid 19 (demo [])).2) !! out
     = Some (bool_decide (i = 19%Z))).
Proof.
  assert (Hnd : NoDup (out_pins (gpio_pins (self (demo [])))))
    by (apply (bool_decide_unpack _); vm_compute; exact I).
  assert (Hrun : switch_vid 19 (demo [])
                 = (Ret tt, (switch_vid 19 (demo [])).2))
    by (vm_compute; reflexivity).
  split; [exact Hnd|]. split; [exact Hrun|].
  exact (C2_exclusive_indicator 19 (demo []) _ Hnd Hrun).
Defined.

(** ** Presses that start nothing *)

(** C4 (as stated, refuted): on the demo installation with video a
    playing, an edge for pin 5, which is no key of the pin dictionary, makes
    [switch_vid] raise [ValueError], and the LED of the playing video goes
    from HIGH to LOW. *)
Lemma C4_unknown_pin_counterexample :
  index_of (in_pins (self playing_a)) 5%Z = None /\
  (switch_vid 5 playing_a).1 = Raise ValueError /\
  levels (world playing_a) !! 21%Z = Some true /\
  levels (world (switch_vid 5 playing_a).2) !! 21%Z
  = Some false.
Proof. vm_compute. repeat split; reflexivity. Qed.

Lemma history_indicated pin o w extra :
  rev (log (indicated pin o w extra)) =
  rev (log w) ++ [LockAcquire] ++ output_actions (gpio_pins o) pin
  ++ rev extra ++ [LockRelease].
Proof.
  unfold indicated. cbn [log rev].
  rewrite !rev_app_distr. cbn [rev]. rewrite rev_involutive.
  rewrite <- !app_assoc. reflexivity.
Qed.

(** For a pin that is no key, the indicator loop makes the calls of the
    reset loop: every output LOW. *)
Lemma output_actions_unknown pins pin :
  pin ∉ pins.*1 -> output_actions pins pin = reset_actions pins.*2.
Proof.
  induction pins as [|[i [out|]] pins IH]; intros Hpin; [reflexivity| |];
    cbn in Hpin; apply not_elem_of_cons in Hpin as [Hne Hpin].
  - unfold output_actions, reset_actions in *. cbn.
    rewrite bool_decide_eq_false_2 by congruence. f_equal. apply IH, Hpin.
  - unfold output_actions, reset_actions in *. cbn. apply IH, Hpin.
Qed.

(** C4 (amended): for a pin that is no key of the pin dictionary,
    [switch_vid] drives every configured output LOW and then raises
    [ValueError]; the object, and with it the player state, is unchanged,
    no process is stopped or started, and the mutex is released. *)
Theorem C4_unknown_pin_raises (pin : Z) (s : Sys) :
  locked (world s) = false ->
  pin ∉ in_pins (self s) ->
  exists s',
    switch_vid pin s = (Raise ValueError, s') /\
    self s' = self s /\
    procs (world s') = procs (world s) /\
    next_pid (world s') = next_pid (world s) /\
    locked (world s') = false /\
    history s' = history s ++ [LockAcquire]
                 ++ reset_actions (gpio_pins (self s)).*2 ++ [LockRelease] /\
    forall i out, (i, Some out) ∈ gpio_pins (self s) ->
      levels (world s') !! out = Some false.
Proof.
  intros Hl Hpin. destruct s as [o w]. cbn [self world] in *.
  eexists. split.
  { apply switch_vid_unknown; [exact Hl|]. apply index_of_None. exact Hpin. }
  unfold history. cbn [self world]. rewrite history_indicated.
  rewrite output_actions_unknown by (exact Hpin).
  repeat split.
  intros i out Hin. eapply write_levels_all_low; eassumption.
Qed.

Lemma C4_unknown_pin_raises_witness :
  locked (world playing_a) = false /\
  (5%Z ∉ in_pins (self playing_a)) /\
  exists s',
    switch_vid 5 playing_a = (Raise ValueError, s') /\
    self s' = self playing_a /\
    procs (world s') = procs (world playing_a) /\
    next_pid (world s') = next_pid (world playing_a) /\
    locked (world s') = false /\
    history s' = history playing_a ++ [LockAcquire]
                 ++ reset_actions (gpio_pins (self playing_a)).*2
                 ++ [LockRelease] /\
    forall i out, (i, Some out) ∈ gpio_pins (self playing_a) ->
      levels (world s') !! out = Some false.
Proof.
  assert (Hl : locked (world playing_a) = false)
    by (vm_compute; reflexivity).
  assert (Hpin : 5%Z ∉ in_pins (self playing_a))
    by (apply index_of_None; vm_compute; reflexivity).
  split; [exact Hl|]. split; [exact Hpin|].
  exact (C4_unknown_pin_raises 5 playing_a Hl Hpin).
Defined.

(** ** A launch that fails *)

(** C5 (as stated, refuted): video a plays under handle 100; the press
    for video b stops it, and the launch of b raises.  The error reaches
    the caller, but the handle stored before is gone. *)
Lemma C5_failed_launch_counterexample :
  (switch_vid 19 playing_a_next_fails).1 = Raise OSError /\
  pid <$> _p (self playing_a_next_fails) = Some 100%Z /\
  _p (self (switch_vid 19 playing_a_next_fails).2) = None.
Proof. vm_compute. repeat split; reflexivity. Qed.

(** C5 (amended): when the launch of the player raises, the error reaches
    the caller of [switch_vid] and the mutex is released; [_active_vid]
    keeps its value, and [_p] is [None]: a handle stored before has been
    signalled and cleared by [_kill_process] before the launch was tried,
    so the object is unchanged exactly when no handle was stored. *)
Theorem C5_failed_launch_clears_handle (pin : Z) (s s' : Sys) :
  switch_vid pin s = (Raise OSError, s') ->
  _active_vid (self s') = _active_vid (self s) /\
  _p (self s') = None /\
  self s' = killed_self (self s) /\
  (_p (self s) = None -> self s' = self s) /\
  (forall h, _p (self s) = Some h ->
     Killpg (getpgid h) SIGINT ∈ history s' /\
     Forall (fun pr => p_pgid pr ≠ getpgid h) (procs (world s'))) /\
  next_pid (world s') = next_pid (world s) /\
  locked (world s') = false.
Proof.
  intros Hrun. destruct (locked (world s)) eqn:Hl.
  { rewrite switch_vid_locked in Hrun by (exact Hl). discriminate Hrun. }
  destruct s as [o w]. cbn [self world] in *. revert Hrun.
  apply (switch_vid_cases pin o w
           (fun r => r = (Raise OSError, s') -> _) Hl); try discriminate.
  intros k filename _ _ _ _ [= <-]. unfold failed_launch. cbn [self world].
  split; [apply killed_self_active|]. split; [apply killed_self_p|].
  split; [reflexivity|]. split; [apply killed_self_idle|].
  split; [|split; reflexivity].
  intros h Hp. unfold history, kill_actions, killed_procs.
  cbn [world log procs]. rewrite Hp. split.
  - apply list_elem_of_In, in_rev. rewrite rev_involutive.
    cbn. do 3 right. left. reflexivity.
  - apply Forall_forall. intros pr Hpr.
    apply list_elem_of_filter in Hpr as [Hne _]. exact Hne.
Qed.

Lemma C5_failed_launch_clears_handle_witness :
  switch_vid 19 playing_a_next_fails
  = (Raise OSError, (switch_vid 19 playing_a_next_fails).2) /\
  _p (self (switch_vid 19 playing_a_next_fails).2) = None.
Proof.
  assert (Hrun : switch_vid 19 playing_a_next_fails
                 = (Raise OSError,
                    (switch_vid 19 playing_a_next_fails).2))
    by (vm_compute; reflexivity).
  split; [exact Hrun|].
  exact (proj1 (proj2 (C5_failed_launch_clears_handle 19 _ _ Hrun))).
Defined.

(** ** Pressing the button of the video that plays *)

(** C6 (as stated, refuted): video a plays, and the spare button 13 has
    been pressed since (its LED lit, [IndexError]).  Video a is still the
    active one and [restart_on_press] is off, yet pressing its button 26
    rewrites the outputs: LED 21 goes from LOW to HIGH. *)
Lemma C6_repeat_press_counterexample :
  index_of (in_pins (self playing_a_spare_lit)) 26%Z = Some 0%nat /\
  videos (self playing_a_spare_lit) !! 0%nat = Some "a.mp4"%string /\
  _active_vid (self playing_a_spare_lit) = Some "a.mp4"%string /\
  restart_on_press (self playing_a_spare_lit) = false /\
  levels (world playing_a_spare_lit) !! 21%Z = Some false /\
  levels (world (switch_vid 26 playing_a_spare_lit).2) !! 21%Z
  = Some true.
Proof. vm_compute. repeat split; reflexivity. Qed.

(** C6 (amended): when the video bound to [pin] is the active one and
    [restart_on_press] is off, [switch_vid pin] returns with the mutex
    released and the object unchanged, stops and starts no process (its
    calls are the lock, the indicator writes and one read of
    [_active_vid]), and rewrites the indicator outputs for [pin]: they are
    unchanged when they showed [pin] before and, with no output pin
    shared, only then. *)
Theorem C6_repeat_press_keeps_playback (pin : Z) (s : Sys) (k : nat)
    (filename : string) :
  locked (world s) = false ->
  index_of (in_pins (self s)) pin = Some k ->
  videos (self s) !! k = Some filename ->
  _active_vid (self s) = Some filename ->
  restart_on_press (self s) = false ->
  exists s',
    switch_vid pin s = (Ret tt, s') /\
    self s' = self s /\
    procs (world s') = procs (world s) /\
    next_pid (world s') = next_pid (world s) /\
    launches (world s') = launches (world s) /\
    locked (world s') = false /\
    history s' = history s ++ [LockAcquire]
                 ++ output_actions (gpio_pins (self s)) pin
                 ++ [Load F_active_vid; LockRelease] /\
    levels (world s') = write_levels (gpio_pins (self s)) pin (levels (world s)) /\
    ((forall i out, (i, Some out) ∈ gpio_pins (self s) ->
        levels (world s) !! out = Some (bool_decide (i = pin))) ->
     levels (world s') = levels (world s)) /\
    (NoDup (out_pins (gpio_pins (self s))) ->
     levels (world s') = levels (world s) ->
     forall i out, (i, Some out) ∈ gpio_pins (self s) ->
       levels (world s) !! out = Some (bool_decide (i = pin))).
Proof.
  intros Hl Hi Hv Ha Hr. destruct s as [o w]. cbn [self world] in *.
  eexists. split; [eapply switch_vid_same; eassumption|].
  unfold history. cbn [self world]. rewrite history_indicated.
  do 7 (split; [reflexivity|]). cbn [indicated levels]. split.
  - intros Hshown. apply write_levels_id. exact Hshown.
  - intros Hnd Hsame i out Hin. rewrite <- Hsame.
    apply write_levels_lookup; assumption.
Qed.

Lemma C6_repeat_press_keeps_playback_witness :
  locked (world playing_a) = false /\
  index_of (in_pins (self playing_a)) 26%Z = Some 0%nat /\
  videos (self playing_a) !! 0%nat = Some "a.mp4"%string /\
  _active_vid (self playing_a) = Some "a.mp4"%string /\
  restart_on_press (self playing_a) = false /\
  exists s',
    switch_vid 26 playing_a = (Ret tt, s') /\
    self s' = self playing_a /\
    procs (world s') = procs (world playing_a) /\
    levels (world s') = levels (world playing_a).
Proof.
  assert (Hl : locked (world playing_a) = false) by (vm_compute; reflexivity).
  assert (Hi : index_of (in_pins (self playing_a)) 26%Z = Some 0%nat)
    by (vm_compute; reflexivity).
  assert (Hv : videos (self playing_a) !! 0%nat = Some "a.mp4"%string)
    by (vm_compute; reflexivity).
  assert (Ha : _active_vid (self playing_a) = Some "a.mp4"%string)
    by (vm_compute; reflexivity).
  assert (Hr : restart_on_press (self playing_a) = false)
    by (vm_compute; reflexivity).
  repeat (split; [assumption|]).
  destruct (C6_repeat_press_keeps_playback 26 playing_a 0%nat "a.mp4"%string
              Hl Hi Hv Ha Hr)
    as [s' (Hrun & Hself & Hprocs & _ & _ & _ & _ & _ & Hsame & _)].
  exists s'. repeat split; try assumption.
  apply Hsame. intros i out Hin.
  apply list_elem_of_In in Hin. cbn in Hin.
  destruct Hin as [[= <- <-]|[[= <- <-]|[[= <- <-]|[]]]];
    vm_compute; reflexivity.
Defined.

(** ** A button without a video *)

(** C10: with more pins than videos, [switch_vid] for a bound pin whose
    position is past the end of the video list raises [IndexError] after
    the indicator loop has run: the object, and so the player state,
    is unchanged, no process is touched, the write that asserts the
    pin's own output has been made, and, when that output pin is not
    shared, it is left HIGH while the other configured outputs are LOW. *)
Theorem C10_spare_pin_lights_then_raises (pin : Z) (s : Sys) (k : nat) :
  locked (world s) = false ->
  index_of (in_pins (self s)) pin = Some k ->
  (length (videos (self s)) <= k)%nat ->
  (length (videos (self s)) < length (gpio_pins (self s)))%nat /\
  exists s',
    switch_vid pin s = (Raise IndexError, s') /\
    self s' = self s /\
    procs (world s') = procs (world s) /\
    locked (world s') = false /\
    history s' = history s ++ [LockAcquire]
                 ++ output_actions (gpio_pins (self s)) pin ++ [LockRelease] /\
    forall out, (pin, Some out) ∈ gpio_pins (self s) ->
      GpioOutput out true ∈ output_actions (gpio_pins (self s)) pin /\
      (NoDup (out_pins (gpio_pins (self s))) ->
       levels (world s') !! out = Some true /\
       forall i out', (i, Some out') ∈ gpio_pins (self s) -> i ≠ pin ->
         levels (world s') !! out' = Some false).
Proof.
  intros Hl Hi Hlen. destruct s as [o w]. cbn [self world] in *. split.
  { apply index_of_Some, lookup_lt_Some in Hi.
    unfold in_pins in Hi. rewrite length_fmap in Hi. lia. }
  eexists. split.
  { eapply switch_vid_out_of_range; [exact Hl|exact Hi|].
    apply lookup_ge_None. exact Hlen. }
  unfold history. cbn [self world]. rewrite history_indicated.
  repeat split.
  - apply output_actions_asserts. assumption.
  - cbn [indicated levels].
    erewrite write_levels_lookup by eassumption.
    rewrite bool_decide_eq_true_2 by reflexivity. reflexivity.
  - intros i out' Hin Hne. cbn [indicated levels].
    erewrite write_levels_lookup by eassumption.
    rewrite bool_decide_eq_false_2 by (exact Hne). reflexivity.
Qed.

Lemma C10_spare_pin_lights_then_raises_witness :
  locked (world playing_a) = false /\
  index_of (in_pins (self playing_a)) 13%Z = Some 2%nat /\
  (length (videos (self playing_a)) <= 2)%nat /\
  (switch_vid 13 playing_a).1 = Raise IndexError /\
  levels (world (switch_vid 13 playing_a).2) !! 16%Z = Some true.
Proof.
  assert (Hl : locked (world playing_a) = false) by (vm_compute; reflexivity).
  assert (Hi : index_of (in_pins (self playing_a)) 13%Z = Some 2%nat)
    by (vm_compute; reflexivity).
  assert (Hlen : (length (videos (self playing_a)) <= 2)%nat)
    by (vm_compute; lia).
  repeat (split; [assumption|]).
  destruct (C10_spare_pin_lights_then_raises 13 playing_a 2%nat Hl Hi Hlen)
    as [_ [s' (Hrun & _ & _ & _ & _ & Hout)]].
  rewrite Hrun. split; [reflexivity|].
  destruct (Hout 16%Z) as [_ Hlevel].
  { apply (bool_decide_unpack _). vm_compute. exact I. }
  apply Hlevel. apply (bool_decide_unpack _). vm_compute. exact I.
Defined.

(** ** The poll of the run loop *)

Lemma for_reset_run outs o w :
  for_ outs reset_step {| self := o; world := w |} =
  (Ret tt, {| self := o;
              world := {| levels := clear_levels outs (levels w);
                          procs := procs w; next_pid := next_pid w;
                          launches := launches w; locked := locked w;
                          log := rev (reset_actions outs) ++ log w |} |}).
Proof.
  revert w. induction outs as [|[out|] outs IH]; intros [lv ps np la lk lg].
  - reflexivity.
  - cbn [for_]. unfold bind at 1. cbn -[for_ clear_levels reset_actions].
    rewrite IH. cbn. rewrite <- app_assoc. reflexivity.
  - cbn [for_]. unfold bind at 1. cbn -[for_ clear_levels reset_actions].
    rewrite IH. reflexivity.
Qed.

Lemma clear_levels_keeps_low outs m out :
  m !! out = Some false -> clear_levels outs m !! out = Some false.
Proof.
  revert m. induction outs as [|[o'|] outs IH]; intros m Hm.
  - exact Hm.
  - change (clear_levels outs (<[o' := false]> m) !! out = Some false).
    apply IH. destruct (decide (o' = out)) as [->|Hne].
    + apply lookup_insert_eq.
    + rewrite lookup_insert_ne by (exact Hne). exact Hm.
  - change (clear_levels outs m !! out = Some false). apply IH, Hm.
Qed.

Lemma clear_levels_lookup outs m out :
  Some out ∈ outs -> clear_levels outs m !! out = Some false.
Proof.
  revert m. induction outs as [|o' outs IH]; intros m Hin.
  - apply elem_of_nil in Hin as [].
  - apply elem_of_cons in Hin as [<-|Hin].
    + change (clear_levels outs (<[out := false]> m) !! out = Some false).
      apply clear_levels_keeps_low, lookup_insert_eq.
    + destruct o' as [o'|];
        [change (clear_levels outs (<[o' := false]> m) !! out = Some false)
        |change (clear_levels outs m !! out = Some false)];
        apply IH, Hin.
Qed.

(** With looping on, a turn of the loop only sleeps. *)
Lemma loop_body_looping o w :
  loop o = true ->
  loop_body {| self := o; world := w |} =
  (Ret tt, {| self := o; world := with_log (cons (Sleep 500)) w |}).
Proof.
  intros Hlp. unfold loop_body, sleep, emit, in_world, bind, attr, when.
  cbn [self world]. rewrite Hlp. reflexivity.
Qed.

(** With looping off and no handle stored, it reads [_p] twice. *)
Lemma loop_body_idle o w :
  loop o = false -> _p o = None ->
  loop_body {| self := o; world := w |} =
  (Ret tt,
   {| self := o;
      world := with_log (app [Load F_p; Load F_p; Sleep 500]) w |}).
Proof.
  intros Hlp Hp. destruct w as [lv ps np la lk lg].
  unfold loop_body, sleep, poll_wait, poll_reset, load_p, emit, in_world,
    bind, attr, when.
  cbn [self world]. rewrite Hlp. cbn. rewrite Hp. cbn. rewrite Hp.
  reflexivity.
Qed.

(** With looping off and a handle stored, it waits for that player and
    resets. *)
Lemma loop_body_finished o w h :
  loop o = false -> _p o = Some h ->
  loop_body {| self := o; world := w |} = (Ret tt, polled o w h).
Proof.
  intros Hlp Hp. destruct w as [lv ps np la lk lg].
  destruct o as [pins sd vids dbg au auto rs lp osd spl sp act p].
  cbn in Hlp, Hp. subst lp p.
  unfold loop_body, sleep, poll_wait, poll_reset, load_p_pid, load_p,
    communicate, reset_outputs, store_active_vid, store_p, emit, in_world,
    in_self, bind, attr, when.
  cbn -[for_ bool_decide].
  repeat (first
            [rewrite (bool_decide_eq_true_2 (is_Some (Some h)))
               by (exists h; reflexivity)
            |rewrite (bool_decide_eq_true_2 (pid h = pid h)) by reflexivity];
          cbn -[for_ bool_decide]).
  rewrite for_reset_run.
  unfold polled, poll_actions.
  cbn [with_log with_procs levels procs next_pid launches locked log self
       world gpio_pins].
  rewrite !rev_app_distr. cbn [rev app]. rewrite <- !app_assoc.
  reflexivity.
Qed.

(** C7: with looping off, once the player whose handle is stored has exited
    by itself, the next turn of the run loop, with no edge event in
    between, returns with [_active_vid] and [_p] cleared and every
    configured output LOW; its calls are the sleep, the wait for the
    player and the writes of the outputs. *)
Theorem C7_poll_resets_after_natural_exit (s : Sys) (h : Popen) :
  loop (self s) = false ->
  _p (self s) = Some h ->
  exists s',
    react Tick (react (ChildExit (pid h)) s).2 = (Ret tt, s') /\
    _active_vid (self s') = None /\
    _p (self s') = None /\
    gpio_pins (self s') = gpio_pins (self s) /\
    (forall i out, (i, Some out) ∈ gpio_pins (self s) ->
       levels (world s') !! out = Some false) /\
    history s' = history s ++ poll_actions (self s) h.
Proof.
  intros Hlp Hp. destruct s as [o w]. cbn [self world] in *.
  eexists. split.
  { cbn [react child_exit in_world fst snd self world].
    apply (loop_body_finished _ _ h); assumption. }
  unfold polled, history. cbn [self world log with_procs].
  repeat split.
  - intros i out Hin. cbn [levels].
    apply clear_levels_lookup.
    apply list_elem_of_fmap. exists (i, Some out). split; [reflexivity|exact Hin].
  - rewrite rev_app_distr, rev_involutive. reflexivity.
Qed.

Lemma C7_poll_resets_after_natural_exit_witness :
  loop (self playing_a_once) = false /\
  _p (self playing_a_once)
  = Some {| pid := 100;
            args := ["omxplayer"; "-b"; "-o"; "hdmi"; "a.mp4"]%string;
            setsid := true |} /\
  exists s',
    react Tick (react (ChildExit 100) playing_a_once).2 = (Ret tt, s') /\
    _active_vid (self s') = None /\
    _p (self s') = None /\
    levels (world s') !! 21%Z = Some false.
Proof.
  assert (Hlp : loop (self playing_a_once) = false) by (vm_compute; reflexivity).
  assert (Hp : _p (self playing_a_once)
               = Some {| pid := 100;
                         args := ["omxplayer"; "-b"; "-o"; "hdmi"; "a.mp4"]%string;
                         setsid := true |})
    by (vm_compute; reflexivity).
  split; [exact Hlp|]. split; [exact Hp|].
  destruct (C7_poll_resets_after_natural_exit playing_a_once _ Hlp Hp)
    as [s' (Hrun & Hact & Hnone & _ & Hlow & _)].
  exists s'. repeat split; try assumption.
  apply (Hlow 26%Z). apply (bool_decide_unpack _). vm_compute. exact I.
Defined.

(** A press that replaced the player while the poll was waiting is told
    apart from a natural exit: the pid differs and nothing is reset. *)
Lemma poll_reset_other o w h n :
  _p o = Some h -> pid h ≠ n ->
  poll_reset n {| self := o; world := w |} =
  (Ret tt, {| self := o; world := with_log (app [Load F_p; Load F_p]) w |}).
Proof.
  intros Hp Hne. destruct w as [lv ps np la lk lg].
  unfold poll_reset, load_p_pid, load_p, emit, in_world, bind, attr, when.
  cbn -[bool_decide]. rewrite Hp.
  rewrite (bool_decide_eq_true_2 (is_Some (Some h))) by (exists h; reflexivity).
  cbn -[bool_decide]. rewrite Hp. cbn -[bool_decide].
  rewrite bool_decide_eq_false_2 by (exact Hne). reflexivity.
Qed.

(** The state stays consistent under everything that can happen while the
    run loop runs. *)
Lemma react_consistent ev s : consistent s -> consistent (react ev s).2.
Proof.
  intros Hc. destruct ev as [|pin|n|e]; cbn [react].
  - destruct s as [o w]. destruct (loop o) eqn:Hlp.
    + rewrite loop_body_looping by assumption.
      destruct Hc as [Hl Hheld Hsess Hone]. split; assumption.
    + destruct (_p o) as [h|] eqn:Hp.
      * rewrite (loop_body_finished o w h) by assumption.
        destruct Hc as [Hl Hheld Hsess Hone]. cbn [self world] in *.
        assert (Hnone : live_players (world (polled o w h)) = []).
        { unfold live_players, polled. cbn [world procs].
          apply elem_of_nil_inv. intros pr Hpr.
          apply list_elem_of_filter in Hpr as [Hplayer Hpr].
          apply list_elem_of_filter in Hpr as [Hpid Hpr].
          destruct (Hheld pr) as [_ [h' [Hh' Hsame]]].
          { apply list_elem_of_filter. split; assumption. }
          rewrite Hp in Hh'. injection Hh' as <-. apply Hpid. congruence. }
        split; cbn [snd].
        -- exact Hl.
        -- rewrite Hnone. intros pr Hpr. apply elem_of_nil in Hpr as [].
        -- cbn. discriminate.
        -- rewrite Hnone. cbn. lia.
      * rewrite loop_body_idle by assumption.
        destruct Hc as [Hl Hheld Hsess Hone]. split; assumption.
  - pose proof (switch_vid_consistent pin s Hc) as [_ Hc'].
    unfold on_gpio_thread. destruct (switch_vid pin s) as [[[]|e|] s1];
      exact Hc'.
  - destruct Hc as [Hl Hheld Hsess Hone]. destruct s as [o w].
    cbn [self world] in *.
    assert (Hsub : forall pr,
               pr ∈ live_players (with_procs (filter (fun pr => p_pid pr ≠ n)) w) ->
               pr ∈ live_players w).
    { intros pr Hpr. unfold live_players in *. cbn [procs with_procs] in Hpr.
      rewrite live_players_filtered in Hpr.
      apply list_elem_of_filter in Hpr as [_ Hpr]. exact Hpr. }
    split; cbn [child_exit in_world snd self world].
    + exact Hl.
    + intros pr Hpr. apply Hheld, Hsub, Hpr.
    + exact Hsess.
    + unfold live_players in *. cbn [procs with_procs].
      rewrite live_players_filtered.
      etransitivity; [apply length_filter|exact Hone].
  - exact Hc.
Qed.

Lemma run_loop_consistent evs s : consistent s -> consistent (run_loop evs s).2.
Proof.
  revert s. induction evs as [|ev evs IH]; intros s Hc; cbn [run_loop].
  - exact Hc.
  - unfold bind. pose proof (react_consistent ev s Hc) as Hc'.
    destruct (react ev s) as [[[]|e|] s1]; cbn [snd] in *;
      [apply IH, Hc'|exact Hc'|exact Hc'].
Qed.

Lemma consistent_one_player s : consistent s -> one_player_at_most s.
Proof.
  intros [_ Hheld _ Hone]. split; [exact Hone|].
  intros pr Hpr. apply (Hheld pr Hpr).
Qed.

(** C1: start from a state with no handle stored, no player running and
    the mutex free, as construction leaves it.  After any sequence of
    [switch_vid] calls, each run to its end, at most one player that was
    started has not been stopped, and a player that still runs is the one
    whose handle is stored in [_p].  The same holds at every moment of
    the run loop, under any schedule of turns, edges, exits and errors. *)
Theorem C1_single_player_handle (s : Sys) :
  _p (self s) = None ->
  live_players (world s) = [] ->
  locked (world s) = false ->
  (forall pins, one_player_at_most (presses pins s)) /\
  (forall evs, one_player_at_most (run_loop evs s).2).
Proof.
  intros Hp Hnone Hl.
  assert (Hc : consistent s)
    by (destruct s; apply fresh_consistent; assumption).
  split.
  - intros pins. apply consistent_one_player, presses_consistent, Hc.
  - intros evs. apply consistent_one_player, run_loop_consistent, Hc.
Qed.

Lemma C1_single_player_handle_witness :
  _p (self (demo [true; false])) = None /\
  live_players (world (demo [true; false])) = [] /\
  locked (world (demo [true; false])) = false /\
  one_player_at_most (presses [26; 19; 13; 26; 19]%Z (demo [true; false])).
Proof.
  do 3 (split; [reflexivity|]).
  exact (proj1 (C1_single_player_handle (demo [true; false])
                  eq_refl eq_refl eq_refl)
               [26; 19; 13; 26; 19]%Z).
Defined.

(** ** What a computation adds to the log *)

Section Emits.
Context (P : action -> Prop).

Lemma emits_silent {A} (m : M A) :
  (forall s, log (world (m s).2) = log (world s)) -> emits P m.
Proof. intros Hm s. exists []. split; [apply Hm|constructor]. Qed.

Lemma emits_ret {A} (a : A) : emits P (ret a).
Proof. apply emits_silent. reflexivity. Qed.

Lemma emits_raise {A} (e : exn) : emits P (@raise A e).
Proof. apply emits_silent. reflexivity. Qed.

Lemma emits_hang {A} : emits P (@hang A).
Proof. apply emits_silent. reflexivity. Qed.

Lemma emits_attr {A} (f : VidLooper -> A) : emits P (attr f).
Proof. apply emits_silent. reflexivity. Qed.

Lemma emits_in_self f : emits P (in_self f).
Proof. apply emits_silent. reflexivity. Qed.

Lemma emits_in_world f :
  (forall w, log (f w) = log w) -> emits P (in_world f).
Proof. intros Hf. apply emits_silent. intros s. apply Hf. Qed.

Lemma emits_emit a : P a -> emits P (emit a).
Proof.
  intros Ha s. exists [a]. split; [reflexivity|]. repeat constructor. exact Ha.
Qed.

Lemma emits_bind {A B} (m : M A) (k : A -> M B) :
  emits P m -> (forall a, emits P (k a)) -> emits P (bind m k).
Proof.
  intros Hm Hk s. unfold bind. destruct (Hm s) as [t1 [H1 HP1]].
  destruct (m s) as [[a|e|] s1]; cbn [snd] in *.
  - destruct (Hk a s1) as [t2 [H2 HP2]]. exists (t2 ++ t1). split.
    + rewrite H2, H1. apply app_assoc.
    + apply Forall_app. split; assumption.
  - exists t1. split; assumption.
  - exists t1. split; assumption.
Qed.

Lemma emits_try_finally {A} (body : M A) (fin : M unit) :
  emits P body -> emits P fin -> emits P (try_finally body fin).
Proof.
  intros Hb Hf s. unfold try_finally. destruct (Hb s) as [t1 [H1 HP1]].
  destruct (body s) as [r s1]; cbn [snd] in *.
  assert (Hboth : exists t,
             log (world (fin s1).2) = t ++ log (world s) /\ Forall P t).
  { destruct (Hf s1) as [t2 [H2 HP2]]. exists (t2 ++ t1). split.
    - rewrite H2, H1. apply app_assoc.
    - apply Forall_app. split; assumption. }
  destruct r as [a|e|].
  - destruct (fin s1) as [[[]|e'|] s2]; exact Hboth.
  - destruct (fin s1) as [[[]|e'|] s2]; exact Hboth.
  - exists t1. split; assumption.
Qed.

Lemma emits_for {A} (l : list A) (body : A -> M unit) :
  (forall x, emits P (body x)) -> emits P (for_ l body).
Proof.
  intros Hbody. induction l as [|x l IH]; cbn [for_].
  - apply emits_ret.
  - apply emits_bind; [apply Hbody|intros _; exact IH].
Qed.

Lemma emits_when (b : bool) (m : M unit) : emits P m -> emits P (when b m).
Proof. intros Hm. destruct b; [exact Hm|apply emits_ret]. Qed.

Lemma emits_on_gpio_thread (m : M unit) :
  emits P m -> emits P (on_gpio_thread m).
Proof.
  intros Hm s. unfold on_gpio_thread. destruct (Hm s) as [t [Ht HP]].
  exists t. destruct (m s) as [[[]|e|] s1]; split; assumption.
Qed.

Lemma emits_acquire : P LockAcquire -> emits P acquire.
Proof.
  intros Ha s. unfold acquire. destruct (locked (world s)).
  - exists []. split; [reflexivity|constructor].
  - exists [LockAcquire]. split; [reflexivity|]. repeat constructor. exact Ha.
Qed.

Lemma emits_popen argv pipe_stdout session :
  (forall child, P (Spawn argv pipe_stdout session child)) ->
  emits P (popen argv pipe_stdout session).
Proof.
  intros Hs s. unfold popen.
  destruct (launches (world s)) as [|[|] rest];
    eexists [_]; (split; [reflexivity|]); repeat constructor; apply Hs.
Qed.
End Emits.

Ltac emits_step :=
  first
    [ apply emits_ret | apply emits_raise | apply emits_hang
    | apply emits_attr | apply emits_in_self
    | apply emits_in_world; intros []; reflexivity
    | apply emits_emit; reflexivity
    | apply emits_acquire; reflexivity
    | apply emits_popen; intros; reflexivity
    | apply emits_bind; [|intros ?]
    | apply emits_try_finally
    | apply emits_for; intros ?
    | apply emits_when
    | apply emits_on_gpio_thread
    | match goal with
      | |- emits _ (match ?x with _ => _ end) => destruct x
      end ].

(** Nothing but [__del__] cleans up the GPIO. *)
Lemma switch_vid_no_cleanup pin :
  emits (fun a => is_cleanup a = false) (switch_vid pin).
Proof.
  unfold switch_vid, with_mutex, update_outputs, output_step, tuple_index,
    getitem, load_active_vid, _kill_process, load_p, killpg, store_p,
    store_active_vid, gpio_output, release.
  repeat emits_step.
Qed.

Lemma loop_body_no_cleanup :
  emits (fun a => is_cleanup a = false) loop_body.
Proof.
  unfold loop_body, sleep, poll_wait, poll_reset, load_p_pid, load_p,
    communicate, reset_outputs, reset_step, store_active_vid, store_p,
    gpio_output.
  repeat emits_step.
Qed.

Lemma run_loop_no_cleanup evs :
  emits (fun a => is_cleanup a = false) (run_loop evs).
Proof.
  induction evs as [|ev evs IH]; cbn [run_loop]; [apply emits_hang|].
  apply emits_bind; [|intros _; exact IH].
  destruct ev; cbn [react].
  - apply loop_body_no_cleanup.
  - apply emits_on_gpio_thread, switch_vid_no_cleanup.
  - unfold child_exit. emits_step.
  - apply emits_raise.
Qed.

Lemma start_setup_no_cleanup :
  emits (fun a => is_cleanup a = false) start_setup.
Proof.
  unfold start_setup, os_system, gpio_setup_in, gpio_setup_out,
    add_event_detect, gpio_output, getitem.
  repeat first [apply switch_vid_no_cleanup | emits_step].
Qed.

Lemma emits_no_cleanup_count {A} (m : M A) s :
  emits (fun a => is_cleanup a = false) m ->
  teardowns (m s).2 = teardowns s.
Proof.
  intros Hm. destruct (Hm s) as [t [Ht HP]]. unfold teardowns.
  rewrite Ht, filter_app, length_app.
  replace (filter (fun a => is_cleanup a = true) t) with (@nil action);
    [reflexivity|].
  symmetry. apply elem_of_nil_inv. intros a Ha.
  apply list_elem_of_filter in Ha as [Hyes Hin].
  rewrite Forall_forall in HP. rewrite (HP a Hin) in Hyes. discriminate.
Qed.

(** ** The teardown *)

Lemma del_run o w : __del__ {| self := o; world := w |} = (Ret tt, torn_down o w).
Proof.
  destruct w as [lv ps np la lk lg].
  destruct o as [pins sd vids dbg au auto rs lp osd spl sp act p].
  unfold __del__, os_system, gpio_cleanup, killpg, emit, in_world, bind, attr,
    when.
  cbn -[_kill_process].
  destruct dbg; cbn -[_kill_process]; rewrite kill_process_run;
    unfold torn_down, teardown_actions, splash_kill, killed_self,
      killed_procs, kill_actions;
    destruct p, sp; reflexivity.
Qed.

Lemma teardown_actions_once o :
  length (filter (fun a => is_cleanup a = true) (teardown_actions o)) = 1%nat.
Proof.
  unfold teardown_actions, kill_actions, splash_kill.
  destruct (debug o), (_p o), (_splashproc o); reflexivity.
Qed.

Lemma run_loop_never_returns evs s : (run_loop evs s).1 ≠ Ret tt.
Proof.
  revert s. induction evs as [|ev evs IH]; intros s; cbn [run_loop].
  - discriminate.
  - unfold bind. destruct (react ev s) as [[[]|e|] s1]; cbn [fst].
    + apply IH.
    + discriminate.
    + discriminate.
Qed.

Lemma cleanups_rev (l : list action) :
  length (filter (fun a => is_cleanup a = true) (rev l))
  = length (filter (fun a => is_cleanup a = true) l).
Proof.
  induction l as [|a l IH]; [reflexivity|].
  cbn [rev]. rewrite filter_app, length_app, IH, !filter_cons, filter_nil.
  destruct (decide (is_cleanup a = true)); cbn [length]; lia.
Qed.

Lemma torn_down_once o w :
  teardowns (torn_down o w) = S (teardowns {| self := o; world := w |}).
Proof.
  unfold teardowns, torn_down. cbn [world log].
  rewrite filter_app, length_app, cleanups_rev, teardown_actions_once.
  reflexivity.
Qed.

(** C8 (as stated, refuted): on the demo installation the operator
    interrupts the run loop at once.  When the player cannot be launched at
    autostart, [start] raises before its [try] and runs no teardown; when
    it can, [finally] runs the teardown once.  If the interpreter then
    finalises the object, [__del__] runs once more on either path: one
    and two teardowns.  So the teardown runs exactly once on both paths
    under neither reading.  And the only signal the interrupted run sends
    to the player is the interrupt signal, not the kill signal. *)
Lemma C8_teardown_counterexample :
  (start [Throw KeyboardInterrupt] (demo [false])).1 = Raise OSError /\
  teardowns (start [Throw KeyboardInterrupt] (demo [false])).2 = 0%nat /\
  (start [Throw KeyboardInterrupt] (demo [])).1 = Raise KeyboardInterrupt /\
  teardowns (start [Throw KeyboardInterrupt] (demo [])).2 = 1%nat /\
  teardowns (lifetime true [Throw KeyboardInterrupt] (demo [false])).2 = 1%nat /\
  teardowns (lifetime true [Throw KeyboardInterrupt] (demo [])).2 = 2%nat /\
  filter (fun a => is_kill a = true)
         (history (start [Throw KeyboardInterrupt] (demo [])).2)
  = [Killpg 100 SIGINT].
Proof. vm_compute. repeat split; reflexivity. Qed.

(** C8 (amended): [start] never returns normally.  When it raises, either
    the error arose before the run loop was entered and no teardown has
    run, or the run loop was left by an exception (the operator's
    interrupt or any other error; the loop has no normal exit) and
    [finally] has run the teardown exactly once, in this order: restore
    the terminal cursor unless in debug mode, clean up the GPIO, send the
    interrupt signal to the group of the stored player handle, if any, and
    clear it, send the kill signal to the group of the splash process, if
    any.  Afterwards no output is driven and no handle is stored. *)
Theorem C8_start_tears_down_on_loop_exit (evs : list event) (s s' : Sys)
    (r : outcome unit) :
  start evs s = (r, s') ->
  r ≠ Hang ->
  exists e, r = Raise e /\
    ((start_setup s = (Raise e, s') /\ teardowns s' = teardowns s) \/
     (exists s0 s1,
        start_setup s = (Ret tt, s0) /\
        run_loop evs s0 = (Raise e, s1) /\
        history s' = history s1 ++ teardown_actions (self s1) /\
        teardowns s' = S (teardowns s) /\
        levels (world s') = ∅ /\
        _p (self s') = None)).
Proof.
  intros Hrun Hr. unfold start, bind in Hrun.
  pose proof (emits_no_cleanup_count start_setup s start_setup_no_cleanup)
    as Hsetup_count.
  destruct (start_setup s) as [[[]|e|] s0] eqn:Hsetup; cbn [snd] in Hsetup_count.
  - unfold try_finally in Hrun.
    pose proof (run_loop_never_returns evs s0) as Hnever.
    pose proof (emits_no_cleanup_count (run_loop evs) s0 (run_loop_no_cleanup evs))
      as Hloop_count.
    destruct (run_loop evs s0) as [[[]|e|] [o1 w1]] eqn:Hloop;
      cbn [fst snd] in *.
    + exfalso. apply Hnever. reflexivity.
    + rewrite del_run in Hrun. injection Hrun as <- <-.
      exists e. split; [reflexivity|]. right.
      exists s0, {| self := o1; world := w1 |}.
      split; [reflexivity|]. split; [exact Hloop|].
      split; [|split; [|split]].
      * unfold history, torn_down. cbn [self world log].
        rewrite rev_app_distr, rev_involutive. reflexivity.
      * rewrite torn_down_once. congruence.
      * reflexivity.
      * apply killed_self_p.
    + injection Hrun as <- <-. exfalso. apply Hr. reflexivity.
  - injection Hrun as <- <-. exists e. split; [reflexivity|]. left.
    split; [reflexivity|exact Hsetup_count].
  - injection Hrun as <- <-. exfalso. apply Hr. reflexivity.
Qed.

Lemma C8_start_tears_down_on_loop_exit_witness :
  start [Tick; Edge 19; Throw KeyboardInterrupt] (demo [])
  = (Raise KeyboardInterrupt,
     (start [Tick; Edge 19; Throw KeyboardInterrupt] (demo [])).2) /\
  @Raise unit KeyboardInterrupt ≠ Hang /\
  teardowns (start [Tick; Edge 19; Throw KeyboardInterrupt] (demo [])).2
  = 1%nat.
Proof.
  assert (Hrun : start [Tick; Edge 19; Throw KeyboardInterrupt] (demo [])
                 = (Raise KeyboardInterrupt,
                    (start [Tick; Edge 19; Throw KeyboardInterrupt] (demo [])).2))
    by (vm_compute; reflexivity).
  assert (Hr : @Raise unit KeyboardInterrupt ≠ Hang) by discriminate.
  split; [exact Hrun|]. split; [exact Hr|].
  destruct (C8_start_tears_down_on_loop_exit _ _ _ _ Hrun Hr)
    as [e [_ [[Hsetup _]|(s0 & s1 & _ & _ & _ & Hcount & _)]]].
  - vm_compute in Hsetup. discriminate Hsetup.
  - exact Hcount.
Defined.

(** ** The mutex *)


Lemma guarded_resets held outs t :
  guarded held (reset_actions outs ++ t) = guarded held t.
Proof.
  induction outs as [|[out|] outs IH]; [reflexivity|exact IH|exact IH].
Qed.



Lemma history_launched pin o w filename :
  history (launched pin o w filename) =
  rev (log w) ++ [LockAcquire] ++ output_actions (gpio_pins o) pin
  ++ [Load F_active_vid] ++ kill_actions o
  ++ [spawn_action o filename (Some (next_pid w)); Store F_p;
      Store F_active_vid; LockRelease].
Proof.
  unfold history, launched. cbn [world log rev].
  rewrite !rev_app_distr. cbn [rev]. rewrite !rev_app_distr, !rev_involutive.
  cbn [rev app]. rewrite <- !app_assoc. reflexivity.
Qed.

(** With [restart_on_press] on, pressing the button of the video that
    plays stops its player and starts it again under a new handle. *)
Lemma switch_vid_restart pin o w k filename h :
  locked w = false ->
  index_of (in_pins o) pin = Some k ->
  videos o !! k = Some filename ->
  restart_on_press o = true ->
  _p o = Some h ->
  head (launches w) ≠ Some false ->
  exists s',
    switch_vid pin {| self := o; world := w |} = (Ret tt, s') /\
    history s' = rev (log w) ++ [LockAcquire]
                 ++ output_actions (gpio_pins o) pin
                 ++ [Load F_active_vid; Load F_p; Load F_p;
                     Killpg (getpgid h) SIGINT; Store F_p;
                     spawn_action o filename (Some (next_pid w));
                     Store F_p; Store F_active_vid; LockRelease] /\
    _p (self s') = Some (new_player o w filename) /\
    _active_vid (self s') = Some filename.
Proof.
  intros Hl Hi Hv Hr Hp Hla. eexists. split.
  { eapply switch_vid_launched; try eassumption.
    rewrite Hr. apply orb_true_r. }
  rewrite history_launched. unfold kill_actions. rewrite Hp.
  split; [reflexivity|]. split; reflexivity.
Qed.






(** ** Construction *)

(** With an explicit, non-empty list of videos the assertion does what its
    comment says: a constructed object has no more videos than pins. *)
Lemma init_explicit_checked fs au auto rs dir v vs pins lp osd sd spl dbg o :
  __init__ fs au auto rs dir (Some (v :: vs)) pins lp osd sd spl dbg = inr o ->
  (length (videos o) <= length (gpio_pins o))%nat.
Proof.
  unfold __init__.
  destruct (forallb (path_exists fs) (v :: vs)); [|discriminate].
  case_bool_decide as Hlen; [|discriminate].
  case_bool_decide; [|discriminate].
  intros [= <-]. exact Hlen.
Qed.

(** With [videos=None] the assertion itself fails: [len(None)]. *)
Lemma init_none_fails fs au auto rs dir pins lp osd sd spl dbg o :
  __init__ fs au auto rs dir None pins lp osd sd spl dbg ≠ inr o.
Proof.
  unfold __init__. destruct (listdir fs dir) as [names|]; [|discriminate].
  destruct (path_join dir <$> filter is_video (sorted names)); discriminate.
Qed.

(** With an empty sequence the videos come from the directory, and the
    assertion, which looks at the empty argument, lets any number pass. *)
Lemma init_scan_unchecked fs au auto rs dir pins lp osd sd spl dbg names :
  listdir fs dir = Some names ->
  path_join dir <$> filter is_video (sorted names) ≠ [] ->
  au ∈ ["hdmi"; "local"; "both"]%string ->
  exists o,
    __init__ fs au auto rs dir (Some []) pins lp osd sd spl dbg = inr o /\
    videos o = path_join dir <$> filter is_video (sorted names) /\
    gpio_pins o = default _GPIO_PIN_DEFAULT pins.
Proof.
  intros Hdir Hsome Hau. unfold __init__. rewrite Hdir.
  destruct (path_join dir <$> filter is_video (sorted names)) as [|f found];
    [congruence|].
  cbn [length]. rewrite bool_decide_eq_true_2 by lia.
  rewrite bool_decide_eq_true_2 by (exact Hau).
  eexists. split; [reflexivity|]. split; reflexivity.
Qed.

(** C3 (the code at the failing input): called as the command line calls
    it when no video is named, with an empty [videos] and the default four
    pins, on a directory of five videos, [__init__] returns an object with
    five videos for four pins; with [videos=None], the default of the
    constructor, the assertion raises [TypeError]; with the same five
    videos passed explicitly it raises [AssertionError]. *)
Theorem C3_directory_videos_exceed_pins :
  __init__ five_videos "hdmi" true false "/videos" (Some []) None
           true false None None false
  = inr {| gpio_pins := _GPIO_PIN_DEFAULT; shutdown_pin := None;
           videos := ["/videos/a.mp4"; "/videos/b.mkv"; "/videos/c.avi";
                      "/videos/d.mov"; "/videos/e.mp4"]%string;
           debug := false; audio := "hdmi"%string; autostart := true;
           restart_on_press := false; loop := true; no_osd := false;
           splash := None; _splashproc := None; _active_vid := None;
           _p := None |} /\
  (length _GPIO_PIN_DEFAULT < 5)%nat /\
  __init__ five_videos "hdmi" true false "/videos" None None
           true false None None false
  = inl TypeError /\
  __init__ five_videos "hdmi" true false "/videos"
           (Some ["/videos/a.mp4"; "/videos/b.mkv"; "/videos/c.avi";
                  "/videos/d.mov"; "/videos/e.mp4"]%string) None
           true false None None false
  = inl AssertionError.
Proof.
  split; [vm_compute; reflexivity|]. split; [vm_compute; lia|].
  split; vm_compute; reflexivity.
Qed.

(** * The pin specification of the command line *)

Lemma split_on_cons sep s : exists f fs, split_on sep s = f :: fs.
Proof.
  induction s as [|c s [f [fs IH]]]; cbn [split_on].
  - eauto.
  - case_bool_decide; [eauto|]. rewrite IH. eauto.
Qed.

Lemma chars_append a b : chars (String.append a b) = chars a ++ chars b.
Proof.
  induction a as [|c a IH]; [reflexivity|].
  change (c :: chars (String.append a b) = c :: chars a ++ chars b).
  f_equal. exact IH.
Qed.

Lemma split_on_free sep a : sep ∉ chars a -> split_on sep a = [a].
Proof.
  induction a as [|c a IH]; intros Hfree; [reflexivity|].
  change (chars (String c a)) with (c :: chars a) in Hfree.
  apply not_elem_of_cons in Hfree as [Hne Hfree].
  cbn [split_on]. rewrite bool_decide_eq_false_2 by congruence.
  rewrite IH by (exact Hfree). reflexivity.
Qed.

Lemma split_on_app sep a b :
  sep ∉ chars a ->
  split_on sep (String.append a (String sep b)) = a :: split_on sep b.
Proof.
  induction a as [|c a IH]; intros Hfree.
  - change (split_on sep (String sep b) = EmptyString :: split_on sep b).
    cbn [split_on]. rewrite bool_decide_eq_true_2 by reflexivity. reflexivity.
  - change (chars (String c a)) with (c :: chars a) in Hfree.
    apply not_elem_of_cons in Hfree as [Hne Hfree].
    change (split_on sep (String c (String.append a (String sep b)))
            = String c a :: split_on sep b).
    cbn [split_on]. rewrite bool_decide_eq_false_2 by congruence.
    rewrite IH by (exact Hfree). reflexivity.
Qed.

Lemma split_join sep items :
  items ≠ [] ->
  Forall (fun x => sep ∉ chars x) items ->
  split_on sep (join_with sep items) = items.
Proof.
  induction items as [|x [|y items] IH]; intros Hne Hfree.
  - congruence.
  - cbn. apply split_on_free. apply Forall_cons in Hfree as [Hx _]. exact Hx.
  - apply Forall_cons in Hfree as [Hx Hfree].
    change (split_on sep (String.append x (String sep (join_with sep (y :: items))))
            = x :: y :: items).
    rewrite split_on_app by (exact Hx). f_equal. apply IH; [discriminate|exact Hfree].
Qed.

(** The test on the number of fields can never hold: a count is not both
    zero and above two. *)
Lemma field_count_guard_dead (fields : list string) :
  bool_decide (0 = length fields)%nat && bool_decide (2 < length fields)%nat
  = false.
Proof.
  destruct fields; cbn; [reflexivity|].
  rewrite bool_decide_eq_false_2 by lia. reflexivity.
Qed.

(** One turn of the loop: the item must yield a binding, and its input pin
    must be new. *)
Lemma parse_pair_binding int d item :
  parse_pair int d item =
  match item_binding int item with
  | Some b =>
      if bool_decide (b.1 ∈ d.*1) then inl ValueError else inr (d ++ [b])
  | None => inl ValueError
  end.
Proof.
  unfold parse_pair, item_binding, item_fields.
  rewrite field_count_guard_dead.
  destruct (split_on_cons ":"%char item) as [first [fs ->]].
  cbn [lookup list_lookup]. destruct fs as [|second fs]; cbn.
  - destruct (int first); reflexivity.
  - destruct (int first); cbn; [|reflexivity].
    destruct (int second); reflexivity.
Qed.

Lemma parse_pairs_success int items d d' :
  NoDup d.*1 ->
  parse_pairs int items d = inr d' ->
  exists bs,
    d' = d ++ bs /\
    Forall2 (fun item b => item_binding int item = Some b) items bs /\
    NoDup d'.*1.
Proof.
  revert d d'. induction items as [|item items IH]; intros d d' Hnd; cbn.
  - intros [= <-]. exists []. rewrite app_nil_r. repeat split; [constructor|exact Hnd].
  - rewrite parse_pair_binding.
    destruct (item_binding int item) as [b|] eqn:Hb; [|discriminate].
    case_bool_decide as Hdup; [discriminate|]. intros Hrest.
    apply IH in Hrest as (bs & -> & Hall & Hnd').
    + exists (b :: bs). rewrite <- app_assoc in Hnd' |- *.
      repeat split; [|exact Hnd']. constructor; assumption.
    + rewrite fmap_app. apply NoDup_app. split; [exact Hnd|]. split.
      * intros x Hx Hx'. cbn in Hx'. apply list_elem_of_singleton in Hx' as ->.
        contradiction.
      * cbn. apply NoDup_singleton.
Qed.

Lemma parse_pairs_complete int items d bs :
  Forall2 (fun item b => item_binding int item = Some b) items bs ->
  NoDup (d ++ bs).*1 ->
  parse_pairs int items d = inr (d ++ bs).
Proof.
  intros Hall. revert d. induction Hall as [|item b items bs Hb Hall IH];
    intros d Hnd; cbn.
  - rewrite app_nil_r. reflexivity.
  - rewrite parse_pair_binding, Hb.
    rewrite fmap_app in Hnd. cbn in Hnd.
    rewrite bool_decide_eq_false_2.
    + replace (d ++ b :: bs) with ((d ++ [b]) ++ bs)
        by (rewrite <- app_assoc; reflexivity).
      apply IH. rewrite <- app_assoc, fmap_app. exact Hnd.
    + intros Hin. apply NoDup_app in Hnd as (_ & Hdisj & _).
      apply (Hdisj _ Hin). left.
Qed.

Lemma parse_pairs_error int items d e :
  parse_pairs int items d = inl e -> e = ValueError.
Proof.
  revert d. induction items as [|item items IH]; intros d; cbn; [discriminate|].
  rewrite parse_pair_binding.
  destruct (item_binding int item) as [b|]; [|congruence].
  case_bool_decide; [congruence|]. apply IH.
Qed.

Lemma gpio_parser_iff int values d :
  _GpioParser int values = inr d <->
  Forall2 (fun item b => item_binding int item = Some b)
          (split_on ","%char values) d /\
  NoDup d.*1.
Proof.
  unfold _GpioParser. split.
  - intros Hrun. apply parse_pairs_success in Hrun as (bs & -> & Hall & Hnd);
      [|constructor].
    split; assumption.
  - intros [Hall Hnd]. apply (parse_pairs_complete int _ [] d Hall Hnd).
Qed.

(** X1: the parser succeeds exactly when every item of the
    comma-separated list yields a binding and no input pin occurs twice;
    its dictionary then holds the bindings of the items, in their
    order. *)
Theorem gpio_parser_spec (int : string -> option Z) (values : string)
    (d : list (Z * option Z)) :
  _GpioParser int values = inr d <->
  Forall2 (fun item b => item_binding int item = Some b)
          (split_on ","%char values) d /\
  NoDup d.*1.
Proof.
  unfold _GpioParser. split.
  - intros Hrun. apply parse_pairs_success in Hrun as (bs & -> & Hall & Hnd);
      [|constructor].
    split; assumption.
  - intros [Hall Hnd]. apply (parse_pairs_complete int _ [] d Hall Hnd).
Qed.

(** X2: a dictionary that the parser returns has distinct input pins, one
    binding for each item of the list, and at least one binding. *)
Theorem gpio_parser_keys_distinct (int : string -> option Z)
    (values : string) (d : list (Z * option Z)) :
  _GpioParser int values = inr d ->
  NoDup d.*1 /\
  length d = length (split_on ","%char values) /\
  d ≠ [].
Proof.
  intros Hrun. apply gpio_parser_iff in Hrun as [Hall Hnd].
  split; [exact Hnd|].
  apply Forall2_length in Hall. split; [congruence|].
  destruct (split_on_cons ","%char values) as [f [fs Hsplit]].
  rewrite Hsplit in Hall. destruct d; [discriminate Hall|discriminate].
Qed.

Lemma gpio_parser_keys_distinct_witness :
  _GpioParser int_decimal "26:21,19:20,13"
  = inr [(26, Some 21); (19, Some 20); (13, None)]%Z /\
  NoDup [(26, Some 21); (19, Some 20); (13, None)]%Z.*1.
Proof.
  assert (Hrun : _GpioParser int_decimal "26:21,19:20,13"
                 = inr [(26, Some 21); (19, Some 20); (13, None)]%Z)
    by (vm_compute; reflexivity).
  split; [exact Hrun|].
  exact (proj1 (gpio_parser_keys_distinct int_decimal _ _ Hrun)).
Defined.

(** X3: whatever goes wrong in the parser is reported as a [ValueError]. *)
Theorem gpio_parser_raises_value_error (int : string -> option Z)
    (values : string) (e : exn) :
  _GpioParser int values = inl e -> e = ValueError.
Proof. apply parse_pairs_error. Qed.

Lemma gpio_parser_raises_value_error_witness :
  _GpioParser int_decimal "26:21,26:20" = inl ValueError /\
  ValueError = ValueError.
Proof.
  assert (Hrun : _GpioParser int_decimal "26:21,26:20" = inl ValueError)
    by (vm_compute; reflexivity).
  split; [exact Hrun|].
  exact (gpio_parser_raises_value_error int_decimal _ _ Hrun).
Defined.

Lemma item_fields_two a b junk :
  ":"%char ∉ chars a -> ":"%char ∉ chars b ->
  item_fields (String.append a (String ":"%char
                 (String.append b (String ":"%char junk))))
  = (a, Some b).
Proof.
  intros Ha Hb. unfold item_fields.
  rewrite split_on_app by (exact Ha). rewrite split_on_app by (exact Hb).
  reflexivity.
Qed.

(** X4: text after a second colon is never looked at: an item [a:b:junk]
    binds like [a:b], whatever [junk] is. *)
Theorem gpio_parser_ignores_extra_fields (int : string -> option Z)
    (a b junk : string) (i o : Z) :
  ":"%char ∉ chars a -> ","%char ∉ chars a ->
  ":"%char ∉ chars b -> ","%char ∉ chars b ->
  ","%char ∉ chars junk ->
  int a = Some i -> int b = Some o ->
  _GpioParser int (String.append a (String ":"%char
                     (String.append b (String ":"%char junk))))
  = inr [(i, Some o)].
Proof.
  intros Ha Ha' Hb Hb' Hjunk Hi Ho. unfold _GpioParser.
  rewrite split_on_free.
  - cbn [parse_pairs]. rewrite parse_pair_binding. unfold item_binding.
    rewrite item_fields_two by assumption. rewrite Hi, Ho. reflexivity.
  - rewrite chars_append. change (chars (String ":"%char ?s)) with (":"%char :: chars s).
    rewrite not_elem_of_app, not_elem_of_cons, chars_append, not_elem_of_app.
    change (chars (String ":"%char junk)) with (":"%char :: chars junk).
    rewrite not_elem_of_cons. repeat split; (assumption || discriminate).
Qed.

Lemma gpio_parser_ignores_extra_fields_witness :
  _GpioParser int_decimal "26:21:abc" = inr [(26, Some 21)]%Z.
Proof.
  apply (gpio_parser_ignores_extra_fields int_decimal "26" "21" "abc" 26 21);
    first [reflexivity
          |apply (bool_decide_unpack _); vm_compute; exact I].
Defined.

(** X5: an empty item, as an empty specification, a doubled comma or a comma
    at either end gives, is a [ValueError] as soon as [int] rejects the
    empty string. *)
Theorem gpio_parser_rejects_empty_item (int : string -> option Z)
    (values : string) :
  int EmptyString = None ->
  EmptyString ∈ split_on ","%char values ->
  _GpioParser int values = inl ValueError.
Proof.
  intros Hint Hin. destruct (_GpioParser int values) as [e|d] eqn:Hrun.
  - f_equal. eapply parse_pairs_error. exact Hrun.
  - exfalso. apply gpio_parser_iff in Hrun as [Hall _].
    apply list_elem_of_lookup in Hin as [k Hk].
    destruct (Forall2_lookup_l _ _ _ _ _ Hall Hk) as (b & _ & Hb).
    unfold item_binding in Hb. cbn in Hb. rewrite Hint in Hb. discriminate Hb.
Qed.

Lemma gpio_parser_rejects_empty_item_witness :
  int_decimal EmptyString = None /\
  EmptyString ∈ split_on ","%char "26:21," /\
  _GpioParser int_decimal "26:21," = inl ValueError.
Proof.
  assert (Hint : int_decimal EmptyString = None) by reflexivity.
  assert (Hin : EmptyString ∈ split_on ","%char "26:21,")
    by (apply (bool_decide_unpack _); vm_compute; exact I).
  split; [exact Hint|]. split; [exact Hin|].
  exact (gpio_parser_rejects_empty_item int_decimal _ Hint Hin).
Defined.

Lemma render_pair_binding int str io :
  writable int str io.1 ->
  (forall z, io.2 = Some z -> writable int str z) ->
  item_binding int (render_pair str io) = Some io /\
  (","%char ∉ chars (render_pair str io)).
Proof.
  destruct io as [i [o|]]; cbn [fst snd]; intros (Hi & Hcolon & Hcomma) Hout.
  - destruct (Hout o eq_refl) as (Ho & Hcolon' & Hcomma').
    unfold render_pair, item_binding, item_fields. cbn [fst snd]. split.
    + rewrite split_on_app by (exact Hcolon).
      rewrite split_on_free by (exact Hcolon'). cbn. rewrite Hi. cbn.
      rewrite Ho. reflexivity.
    + rewrite chars_append.
      change (chars (String ":"%char ?s)) with (":"%char :: chars s).
      rewrite not_elem_of_app, not_elem_of_cons.
      repeat split; (assumption || discriminate).
  - unfold render_pair, item_binding, item_fields. cbn [fst snd]. split.
    + rewrite split_on_free by (exact Hcolon). cbn. rewrite Hi. reflexivity.
    + exact Hcomma.
Qed.

(** X6: round trip: a non-empty dictionary with distinct input pins, written
    as [in:out] and [in] items joined by commas, is parsed back as itself,
    provided [int] reads each numeral back. *)
Theorem gpio_parser_round_trip (int : string -> option Z) (str : Z -> string)
    (d : list (Z * option Z)) :
  d ≠ [] ->
  NoDup d.*1 ->
  Forall (writable int str) (pin_numbers d) ->
  _GpioParser int (render_pins str d) = inr d.
Proof.
  intros Hne Hnd Hgood. apply gpio_parser_iff. split; [|exact Hnd].
  assert (Heach : Forall (fun io =>
                            item_binding int (render_pair str io) = Some io /\
                            (","%char ∉ chars (render_pair str io))) d).
  { apply Forall_forall. intros io Hio. rewrite Forall_forall in Hgood.
    apply render_pair_binding.
    - apply Hgood. unfold pin_numbers. apply elem_of_app. left.
      apply list_elem_of_fmap. exists io. split; [reflexivity|exact Hio].
    - intros z Hz. apply Hgood. unfold pin_numbers. apply elem_of_app. right.
      apply list_elem_of_omap. exists io. split; [exact Hio|exact Hz]. }
  unfold render_pins. rewrite split_join.
  - apply Forall2_fmap_l. apply Forall_Forall2_diag.
    eapply Forall_impl; [exact Heach|]. intros io [Hb _]. exact Hb.
  - destruct d; [congruence|discriminate].
  - apply Forall_fmap. eapply Forall_impl; [exact Heach|].
    intros io [_ Hc]. exact Hc.
Qed.

Lemma gpio_parser_round_trip_witness :
  _GpioParser int_decimal (render_pins str_decimal _GPIO_PIN_DEFAULT)
  = inr _GPIO_PIN_DEFAULT.
Proof.
  apply gpio_parser_round_trip.
  - discriminate.
  - apply (bool_decide_unpack _). vm_compute. exact I.
  - repeat constructor;
      first [reflexivity|apply (bool_decide_unpack _); vm_compute; exact I].
Defined.

(** * What [start] does before its loop *)

Lemma for_setup_run pins o w :
  for_ pins
    (fun io =>
       gpio_setup_in io.1 ;;;
       match io.2 with
       | Some out_pin => gpio_setup_out out_pin ;;; gpio_output out_pin false
       | None => ret tt
       end) {| self := o; world := w |} =
  (Ret tt, {| self := o;
              world := {| levels := clear_levels pins.*2 (levels w);
                          procs := procs w; next_pid := next_pid w;
                          launches := launches w; locked := locked w;
                          log := rev (setup_actions pins) ++ log w |} |}).
Proof.
  revert w. induction pins as [|[i [out|]] pins IH]; intros [lv ps np la lk lg].
  - reflexivity.
  - cbn [for_]. unfold bind at 1.
    cbn -[for_ clear_levels setup_actions]. rewrite IH.
    cbn [levels procs next_pid launches locked log].
    change (setup_actions ((i, Some out) :: pins))
      with ([GpioSetupIn i; GpioSetupOut out; GpioOutput out false]
            ++ setup_actions pins).
    rewrite rev_app_distr, <- app_assoc. reflexivity.
  - cbn [for_]. unfold bind at 1.
    cbn -[for_ clear_levels setup_actions]. rewrite IH.
    cbn [levels procs next_pid launches locked log].
    change (setup_actions ((i, None) :: pins))
      with ([GpioSetupIn i] ++ setup_actions pins).
    rewrite rev_app_distr, <- app_assoc. reflexivity.
Qed.

Lemma register_inputs_run o w :
  register_inputs {| self := o; world := w |} =
  (Ret tt, {| self := o;
              world := with_log (app (rev (registrations o))) w |}).
Proof.
  unfold register_inputs, registrations, bind, attr. cbn [self].
  generalize (in_pins o) as ins. intros ins. revert w.
  induction ins as [|pin ins IH]; intros [lv ps np la lk lg].
  - reflexivity.
  - cbn [for_]. unfold bind at 1. cbn -[for_]. rewrite IH.
    unfold with_log. cbn [levels procs next_pid launches locked log].
    rewrite <- app_assoc. reflexivity.
Qed.

(** [start] up to its autostart: the terminal is prepared, every pin is
    set up and every output driven LOW, the shutdown pin is registered. *)
Lemma start_setup_split o w :
  start_setup {| self := o; world := w |} =
  (when (autostart o) autostart_step ;;; register_inputs) (wired o w).
Proof.
  destruct w as [lv ps np la lk lg].
  unfold start_setup. unfold bind at 1. cbn [attr self fst snd].
  unfold bind at 1.
  assert (Hterm :
    when (negb (debug o)) (os_system "clear";;; os_system "tput civis")
      {| self := o;
         world := {| levels := lv; procs := ps; next_pid := np;
                     launches := la; locked := lk; log := lg |} |} =
    (Ret tt,
     {| self := o;
        world := {| levels := lv; procs := ps; next_pid := np;
                    launches := la; locked := lk;
                    log := rev (if debug o then []
                                else [OsSystem "clear"; OsSystem "tput civis"])
                           ++ lg |} |}))
    by (destruct (debug o); reflexivity).
  rewrite Hterm. unfold bind at 1. cbn [emit in_world with_log world self log].
  unfold bind at 1. cbn [attr self fst snd]. unfold bind at 1.
  rewrite for_setup_run. cbn [levels procs next_pid launches locked log].
  unfold bind at 1. cbn [attr self fst snd]. unfold bind at 1.
  assert (Hshut : forall w',
    match shutdown_pin o with
    | Some n =>
        when (bool_decide (n ≠ 0%Z))
          (gpio_setup_in n;;; add_event_detect n ShutdownNow)
    | None => ret tt
    end {| self := o; world := w' |} =
    (Ret tt, {| self := o;
                world := with_log (app (rev (shutdown_actions o))) w' |})).
  { intros [lv' ps' np' la' lk' lg']. unfold shutdown_actions.
    destruct (shutdown_pin o) as [n|]; [|reflexivity].
    destruct (bool_decide (n ≠ 0%Z)); reflexivity. }
  rewrite Hshut. cbn [with_log levels procs next_pid launches locked log].
  unfold bind at 1. cbn [attr self fst snd].
  unfold wired, prelude_actions.
  cbn [levels procs next_pid launches locked log].
  rewrite !rev_app_distr, <- !app_assoc. reflexivity.
Qed.

(** * Invariants of whole computations *)

Section Keeps.
Context (I : Sys -> Prop).

Lemma keeps_still {A} (m : M A) : (forall s, (m s).2 = s) -> keeps I m.
Proof. intros Hm s Hs. rewrite Hm. exact Hs. Qed.

Lemma keeps_ret {A} (a : A) : keeps I (ret a).
Proof. apply keeps_still. reflexivity. Qed.

Lemma keeps_raise {A} (e : exn) : keeps I (@raise A e).
Proof. apply keeps_still. reflexivity. Qed.

Lemma keeps_hang {A} : keeps I (@hang A).
Proof. apply keeps_still. reflexivity. Qed.

Lemma keeps_attr {A} (f : VidLooper -> A) : keeps I (attr f).
Proof. apply keeps_still. reflexivity. Qed.

Lemma keeps_bind {A B} (m : M A) (k : A -> M B) :
  keeps I m -> (forall a, keeps I (k a)) -> keeps I (bind m k).
Proof.
  intros Hm Hk s Hs. unfold bind. specialize (Hm s Hs).
  destruct (m s) as [[a|e|] s1]; cbn [snd] in *; [apply Hk|..]; exact Hm.
Qed.

Lemma keeps_try_finally {A} (body : M A) (fin : M unit) :
  keeps I body -> keeps I fin -> keeps I (try_finally body fin).
Proof.
  intros Hb Hf s Hs. unfold try_finally. specialize (Hb s Hs).
  destruct (body s) as [[a|e|] s1]; cbn [snd] in *; [| |exact Hb];
    specialize (Hf s1 Hb); destruct (fin s1) as [[[]|e'|] s2]; exact Hf.
Qed.

Lemma keeps_for {A} (l : list A) (body : A -> M unit) :
  (forall x, keeps I (body x)) -> keeps I (for_ l body).
Proof.
  intros Hbody. induction l as [|x l IH]; cbn [for_].
  - apply keeps_ret.
  - apply keeps_bind; [apply Hbody|intros _; exact IH].
Qed.

Lemma keeps_when (b : bool) (m : M unit) : keeps I m -> keeps I (when b m).
Proof. intros Hm. destruct b; [exact Hm|apply keeps_ret]. Qed.

Lemma keeps_on_gpio_thread (m : M unit) :
  keeps I m -> keeps I (on_gpio_thread m).
Proof.
  intros Hm s Hs. unfold on_gpio_thread. specialize (Hm s Hs).
  destruct (m s) as [[[]|e|] s1]; exact Hm.
Qed.
End Keeps.

Ltac keeps_step leaf :=
  first
    [ leaf
    | apply keeps_ret | apply keeps_raise | apply keeps_hang
    | apply keeps_attr
    | apply keeps_bind; [|intros ?]
    | apply keeps_try_finally
    | apply keeps_for; intros ?
    | apply keeps_when
    | apply keeps_on_gpio_thread
    | match goal with
      | |- keeps _ (match ?x with _ => _ end) => destruct x
      end ].

(** ** The splash handle is set once *)

Lemma keeps_splashproc_world v f :
  keeps (fun s => _splashproc (self s) = v) (in_world f).
Proof. intros s Hs. exact Hs. Qed.

Lemma keeps_splashproc_acquire v :
  keeps (fun s => _splashproc (self s) = v) acquire.
Proof. intros s Hs. unfold acquire. destruct (locked (world s)); exact Hs. Qed.

Lemma keeps_splashproc_popen v argv pipe_stdout session :
  keeps (fun s => _splashproc (self s) = v) (popen argv pipe_stdout session).
Proof.
  intros s Hs. unfold popen. destruct (launches (world s)) as [|[|] rest];
    exact Hs.
Qed.

Lemma keeps_splashproc_set_p v p :
  keeps (fun s => _splashproc (self s) = v) (in_self (set_p p)).
Proof. intros s Hs. exact Hs. Qed.

Lemma keeps_splashproc_set_active v a :
  keeps (fun s => _splashproc (self s) = v) (in_self (set_active_vid a)).
Proof. intros s Hs. exact Hs. Qed.

Ltac splashproc_leaf :=
  first [ apply keeps_splashproc_world | apply keeps_splashproc_acquire
        | apply keeps_splashproc_popen | apply keeps_splashproc_set_p
        | apply keeps_splashproc_set_active ].

(** Nothing in the run loop touches [_splashproc]. *)
Lemma run_loop_keeps_splashproc v evs :
  keeps (fun s => _splashproc (self s) = v) (run_loop evs).
Proof.
  induction evs as [|ev evs IH]; cbn [run_loop]; [apply keeps_hang|].
  apply keeps_bind; [|intros _; exact IH].
  destruct ev; cbn [react].
  - unfold loop_body, sleep, poll_wait, poll_reset, load_p_pid, load_p,
      communicate, reset_outputs, reset_step, store_active_vid, store_p,
      gpio_output, emit.
    repeat keeps_step splashproc_leaf.
  - unfold switch_vid, with_mutex, update_outputs, output_step, tuple_index,
      getitem, load_active_vid, _kill_process, load_p, killpg, store_p,
      store_active_vid, gpio_output, release, emit.
    repeat keeps_step splashproc_leaf.
  - unfold child_exit. splashproc_leaf.
  - apply keeps_raise.
Qed.

(** ** One player at a time, from [start] to the teardown *)

Lemma keeps_consistent_world f :
  (forall w, procs (f w) = procs w /\ locked (f w) = locked w) ->
  keeps consistent (in_world f).
Proof.
  intros Hf [o w] [Hl Hheld Hsess Hone]. destruct (Hf w) as [Hps Hlk].
  cbn [in_world snd self world] in *.
  split; cbn [self world]; unfold live_players in *;
    rewrite ?Hps, ?Hlk; assumption.
Qed.

Lemma keeps_consistent_filter (Q : proc -> Prop)
    `{!forall pr, Decision (Q pr)} :
  keeps consistent (in_world (with_procs (filter Q))).
Proof.
  intros [o w] [Hl Hheld Hsess Hone]. cbn [in_world snd self world] in *.
  split; cbn [self world]; unfold live_players in *;
    cbn [procs with_procs locked].
  - exact Hl.
  - intros pr Hpr. rewrite live_players_filtered in Hpr.
    apply list_elem_of_filter in Hpr as [_ Hpr]. apply Hheld, Hpr.
  - exact Hsess.
  - rewrite live_players_filtered.
    etransitivity; [apply length_filter|exact Hone].
Qed.

Lemma keeps_consistent_splashproc v :
  keeps consistent (in_self (set_splashproc v)).
Proof. intros [o w] [Hl Hheld Hsess Hone]. split; assumption. Qed.

Lemma keeps_consistent_popen argv pipe_stdout session :
  head argv ≠ Some "omxplayer"%string ->
  keeps consistent (popen argv pipe_stdout session).
Proof.
  intros Hother [o w] [Hl Hheld Hsess Hone]. unfold popen.
  cbn [self world] in *.
  destruct (launches w) as [|[|] rest]; cbn [snd];
    split; cbn [self world locked]; unfold live_players in *; cbn [procs];
    rewrite ?filter_cons_False by (exact Hother); assumption.
Qed.

Lemma keeps_consistent_switch_vid pin : keeps consistent (switch_vid pin).
Proof. intros s Hs. apply switch_vid_consistent, Hs. Qed.

Lemma keeps_consistent_kill : keeps consistent _kill_process.
Proof.
  intros [o w] Hc. pose proof (consistent_killed _ Hc) as Hnone.
  destruct Hc as [Hl Hheld Hsess Hone]. rewrite kill_process_run.
  cbn [snd self world] in *.
  split; cbn [self world locked]; unfold live_players; cbn [procs].
  - exact Hl.
  - rewrite Hnone. intros pr Hpr. apply elem_of_nil in Hpr as [].
  - rewrite killed_self_p. discriminate.
  - rewrite Hnone. cbn. lia.
Qed.

Lemma keeps_consistent_run_loop evs : keeps consistent (run_loop evs).
Proof. intros s Hs. apply run_loop_consistent, Hs. Qed.

Ltac consistent_leaf :=
  first [ apply keeps_consistent_switch_vid
        | apply keeps_consistent_kill
        | apply keeps_consistent_run_loop
        | apply keeps_consistent_splashproc
        | apply keeps_consistent_filter
        | apply keeps_consistent_popen; discriminate
        | apply keeps_consistent_world; intros []; split; reflexivity ].

Lemma keeps_consistent_del : keeps consistent __del__.
Proof.
  unfold __del__, os_system, gpio_cleanup, killpg, emit.
  repeat keeps_step consistent_leaf.
Qed.

Lemma keeps_consistent_start_setup : keeps consistent start_setup.
Proof.
  unfold start_setup, os_system, gpio_setup_in, gpio_setup_out,
    add_event_detect, gpio_output, getitem, emit.
  repeat keeps_step consistent_leaf.
Qed.

Lemma keeps_consistent_start evs : keeps consistent (start evs).
Proof.
  unfold start. apply keeps_bind; [apply keeps_consistent_start_setup|].
  intros _. apply keeps_try_finally;
    [apply keeps_consistent_run_loop|apply keeps_consistent_del].
Qed.

(** X17: from a state with no handle stored, no player running and the mutex
    free, [start] under any schedule of whole calls (each callback, each
    turn of the poll and the teardown runs to its end before the next
    begins) ends, or is still looping, with at most one player running,
    the one [_p] points to, and the mutex free: autostart, the callbacks,
    the poll and the teardown, one after the other in any order, never
    leave two players.  Calls that overlap are outside this statement. *)
Theorem start_one_player_throughout (evs : list event) (s : Sys) :
  _p (self s) = None ->
  live_players (world s) = [] ->
  locked (world s) = false ->
  one_player_at_most (start evs s).2 /\
  locked (world (start evs s).2) = false.
Proof.
  intros Hp Hnone Hl.
  assert (Hc : consistent s)
    by (destruct s; apply fresh_consistent; assumption).
  apply (keeps_consistent_start evs) in Hc. split.
  - apply consistent_one_player, Hc.
  - apply Hc.
Qed.

Lemma start_one_player_throughout_witness :
  _p (self (demo [true; false])) = None /\
  live_players (world (demo [true; false])) = [] /\
  locked (world (demo [true; false])) = false /\
  one_player_at_most
    (start [Tick; Edge 19; Edge 13; ChildExit 100; Edge 26]
           (demo [true; false])).2.
Proof.
  do 3 (split; [reflexivity|]).
  exact (proj1 (start_one_player_throughout
                  [Tick; Edge 19; Edge 13; ChildExit 100; Edge 26]
                  (demo [true; false]) eq_refl eq_refl eq_refl)).
Defined.

(** ** Setup without and with autostart *)

Lemma history_wired o w : history (wired o w) = rev (log w) ++ prelude_actions o.
Proof.
  unfold history, wired. cbn [world log].
  rewrite rev_app_distr, rev_involutive. reflexivity.
Qed.

(** X11: with autostart off, [start] reaches its loop having driven every
    configured output LOW, started no process and left the object as it
    was; after the GPIO setup its only calls are the registrations of the
    falling-edge callback, one for each input pin in dictionary order,
    with the bounce time of 200. *)
Theorem setup_without_autostart (o : VidLooper) (w : World) :
  autostart o = false ->
  exists s',
    start_setup {| self := o; world := w |} = (Ret tt, s') /\
    self s' = o /\
    procs (world s') = procs w /\
    history s' = rev (log w) ++ prelude_actions o ++ registrations o /\
    forall i out, (i, Some out) ∈ gpio_pins o ->
      levels (world s') !! out = Some false.
Proof.
  intros Hauto. rewrite start_setup_split, Hauto. cbn [when].
  unfold bind. cbn [ret]. unfold wired. rewrite register_inputs_run.
  eexists. split; [reflexivity|]. cbn [self world with_log procs levels].
  repeat split.
  - unfold history. cbn [world log with_log].
    rewrite !rev_app_distr, !rev_involutive, app_assoc. reflexivity.
  - intros i out Hin. apply clear_levels_lookup.
    apply list_elem_of_fmap. exists (i, Some out). split; [reflexivity|exact Hin].
Qed.

Lemma setup_without_autostart_witness :
  autostart (set_autostart false demo_looper) = false /\
  exists s',
    start_setup {| self := set_autostart false demo_looper;
                   world := power_on [] |} = (Ret tt, s') /\
    procs (world s') = [] /\
    levels (world s') !! 21%Z = Some false.
Proof.
  split; [reflexivity|].
  destruct (setup_without_autostart (set_autostart false demo_looper)
              (power_on []) eq_refl)
    as [s' (Hrun & _ & Hprocs & _ & Hlow)].
  exists s'. split; [exact Hrun|]. split; [exact Hprocs|].
  apply (Hlow 26%Z). apply (bool_decide_unpack _). vm_compute. exact I.
Defined.

(** X12: with autostart on and no splash image, [start] begins as if the
    first button had been pressed: the first video plays under a new
    handle, and with no output pin shared the first LED is the one
    lit. *)
Theorem autostart_plays_first_video (o : VidLooper) (w : World)
    (pin : Z) (out : option Z) (pins : list (Z * option Z))
    (video : string) (vids : list string) :
  autostart o = true ->
  splash o = None ->
  gpio_pins o = (pin, out) :: pins ->
  videos o = video :: vids ->
  _active_vid o = None ->
  locked w = false ->
  head (launches w) ≠ Some false ->
  exists s',
    start_setup {| self := o; world := w |} = (Ret tt, s') /\
    _active_vid (self s') = Some video /\
    _p (self s') = Some (new_player o w video) /\
    p_pid <$> procs (world s') = next_pid w :: (p_pid <$> killed_procs o (procs w)) /\
    (NoDup (out_pins (gpio_pins o)) ->
     forall i out', (i, Some out') ∈ gpio_pins o ->
       levels (world s') !! out' = Some (bool_decide (i = pin))).
Proof.
  intros Hauto Hsplash Hpins Hvids Hact Hl Hla.
  assert (Hfirst : index_of (in_pins o) pin = Some 0%nat).
  { unfold in_pins. rewrite Hpins. cbn.
    rewrite bool_decide_eq_true_2 by reflexivity. reflexivity. }
  assert (Hstep : autostart_step (wired o w)
                  = (Ret tt, launched pin o (world (wired o w)) video)).
  { unfold autostart_step, bind, attr. change (self (wired o w)) with o.
    cbn [fst snd]. rewrite Hsplash. change (self (wired o w)) with o.
    unfold in_pins, getitem. rewrite Hpins.
    cbn [fmap list_fmap fst lookup list_lookup ret].
    apply (switch_vid_launched pin o _ 0%nat video).
    - exact Hl.
    - exact Hfirst.
    - rewrite Hvids. reflexivity.
    - rewrite Hact. reflexivity.
    - exact Hla. }
  rewrite start_setup_split, Hauto. cbn [when].
  unfold bind. rewrite Hstep. unfold launched. rewrite register_inputs_run.
  eexists. split; [reflexivity|].
  cbn [self world wired with_log procs levels next_pid].
  split; [unfold killed_self; destruct (_p o); reflexivity|].
  split; [unfold killed_self; destruct (_p o); reflexivity|].
  split; [reflexivity|].
  intros Hnd i out' Hin. apply write_levels_lookup; assumption.
Qed.

Lemma autostart_plays_first_video_witness :
  exists s',
    start_setup (demo []) = (Ret tt, s') /\
    _active_vid (self s') = Some "a.mp4"%string /\
    levels (world s') !! 21%Z = Some true /\
    levels (world s') !! 20%Z = Some false.
Proof.
  destruct (autostart_plays_first_video demo_looper (power_on [])
              26 (Some 21%Z) [(19, Some 20); (13, Some 16)]%Z
              "a.mp4" ["b.mp4"%string]
              eq_refl eq_refl eq_refl eq_refl eq_refl eq_refl)
    as [s' (Hrun & Hact & _ & _ & Hled)]; [discriminate|].
  exists s'. split; [exact Hrun|]. split; [exact Hact|].
  assert (Hnd : NoDup (out_pins (gpio_pins demo_looper)))
    by (apply (bool_decide_unpack _); vm_compute; exact I).
  split.
  - apply (Hled Hnd 26%Z). apply (bool_decide_unpack _). vm_compute. exact I.
  - apply (Hled Hnd 19%Z). apply (bool_decide_unpack _). vm_compute. exact I.
Defined.

Lemma start_setup_splash_run o w path :
  autostart o = true ->
  splash o = Some path ->
  head (launches w) ≠ Some false ->
  start_setup {| self := o; world := w |} = (Ret tt, splashed o w path).
Proof.
  intros Hauto Hsplash Hla.
  assert (Hstep :
    autostart_step (wired o w) =
    (Ret tt,
     {| self := set_splashproc (Some (splash_handle w path)) o;
        world :=
          {| levels := clear_levels (gpio_pins o).*2 (levels w);
             procs := {| p_pid := next_pid w; p_pgid := own_pgid;
                         p_args := ["fbi"; "--noverbose"; "-a"; path]%string |}
                      :: procs w;
             next_pid := (next_pid w + 1)%Z; launches := tail (launches w);
             locked := locked w;
             log := Spawn ["fbi"; "--noverbose"; "-a"; path]%string false false
                          (Some (next_pid w))
                    :: rev (prelude_actions o) ++ log w |} |})).
  { unfold autostart_step, bind, attr. change (self (wired o w)) with o.
    cbn [fst snd]. rewrite Hsplash. unfold popen, wired.
    cbn [world launches self levels procs next_pid locked log].
    destruct (launches w) as [|[|] la]; [reflexivity|reflexivity|].
    exfalso. apply Hla. reflexivity. }
  rewrite start_setup_split, Hauto. cbn [when].
  unfold bind. rewrite Hstep, register_inputs_run. reflexivity.
Qed.

(** X13: with autostart on and a splash image, [start] launches the image
    viewer without a session of its own, stores its handle, and leaves
    the machine idle: no player, no active video, every output LOW. *)
Theorem autostart_with_splash_stays_idle (o : VidLooper) (w : World)
    (path : string) :
  autostart o = true ->
  splash o = Some path ->
  head (launches w) ≠ Some false ->
  exists s',
    start_setup {| self := o; world := w |} = (Ret tt, s') /\
    _splashproc (self s') = Some (splash_handle w path) /\
    _p (self s') = _p o /\
    _active_vid (self s') = _active_vid o /\
    live_players (world s') = live_players w /\
    procs (world s')
    = {| p_pid := next_pid w; p_pgid := own_pgid;
         p_args := ["fbi"; "--noverbose"; "-a"; path]%string |} :: procs w /\
    forall i out, (i, Some out) ∈ gpio_pins o ->
      levels (world s') !! out = Some false.
Proof.
  intros Hauto Hsplash Hla. exists (splashed o w path).
  split; [apply start_setup_splash_run; assumption|].
  do 5 (split; [reflexivity|]).
  intros i out Hin. apply clear_levels_lookup, list_elem_of_fmap.
  exists (i, Some out). split; [reflexivity|exact Hin].
Qed.

Lemma autostart_with_splash_stays_idle_witness :
  exists s',
    start_setup {| self := set_splash (Some "logo.png"%string) demo_looper;
                   world := power_on [] |} = (Ret tt, s') /\
    pid <$> _splashproc (self s') = Some 100%Z /\
    _p (self s') = None.
Proof.
  destruct (autostart_with_splash_stays_idle
              (set_splash (Some "logo.png"%string) demo_looper)
              (power_on []) "logo.png" eq_refl eq_refl)
    as [s' (Hrun & Hsp & Hp & _)]; [discriminate|].
  exists s'. split; [exact Hrun|]. rewrite Hsp, Hp. split; reflexivity.
Defined.

(** X14: with autostart on, no splash image and an empty pin dictionary,
    [start] raises [IndexError] before its loop, whatever the schedule:
    there is no first pin to press.  Nothing is launched and no teardown
    runs. *)
Theorem autostart_without_pins_raises (o : VidLooper) (w : World)
    (evs : list event) :
  autostart o = true ->
  splash o = None ->
  gpio_pins o = [] ->
  start evs {| self := o; world := w |} = (Raise IndexError, wired o w).
Proof.
  intros Hauto Hsplash Hpins.
  assert (Hstep : autostart_step (wired o w) = (Raise IndexError, wired o w)).
  { unfold autostart_step, bind, attr. change (self (wired o w)) with o.
    cbn [fst snd]. rewrite Hsplash. change (self (wired o w)) with o.
    unfold in_pins. rewrite Hpins. reflexivity. }
  unfold start. unfold bind at 1.
  rewrite start_setup_split, Hauto. cbn [when].
  unfold bind. rewrite Hstep. reflexivity.
Qed.

Lemma autostart_without_pins_raises_witness :
  (start [Tick] {| self := set_gpio_pins [] demo_looper;
                   world := power_on [] |}).1 = Raise IndexError /\
  teardowns (start [Tick] {| self := set_gpio_pins [] demo_looper;
                             world := power_on [] |}).2 = 0%nat.
Proof.
  rewrite (autostart_without_pins_raises (set_gpio_pins [] demo_looper)
             (power_on []) [Tick] eq_refl eq_refl eq_refl).
  split; reflexivity.
Defined.

(** ** The shutdown pin *)

Lemma setup_actions_no_shutdown pins :
  Forall (fun a => is_shutdown_registration a = false) (setup_actions pins).
Proof.
  induction pins as [|[i [out|]] pins IH]; [constructor| |];
    repeat (constructor; [reflexivity|]); exact IH.
Qed.

Lemma autostart_no_shutdown (b : bool) :
  emits (fun a => is_shutdown_registration a = false)
        (when b autostart_step ;;; register_inputs).
Proof.
  unfold autostart_step, register_inputs, add_event_detect, getitem.
  apply emits_bind.
  - apply emits_when. apply emits_bind; [apply emits_attr|]. intros [path|].
    + repeat emits_step.
    + apply emits_bind; [apply emits_attr|]. intros ins.
      apply emits_bind; [destruct (ins !! 0%nat); emits_step|]. intros first.
      unfold switch_vid, with_mutex, update_outputs, output_step, tuple_index,
        getitem, load_active_vid, _kill_process, load_p, killpg, store_p,
        store_active_vid, gpio_output, release.
      repeat emits_step.
  - intros _. repeat emits_step.
Qed.

(** X15: [start] registers the shutdown callback exactly for a shutdown pin
    other than 0, with the bounce time of 200: pin 0, like no pin at all,
    registers nothing. *)
Theorem shutdown_registered_iff_nonzero (s : Sys) :
  exists t,
    history (start_setup s).2 = history s ++ t /\
    forall n b,
      GpioAddEventDetect n ShutdownNow b ∈ t <->
      shutdown_pin (self s) = Some n /\ n ≠ 0%Z /\ b = _GPIO_BOUNCE_TIME.
Proof.
  destruct s as [o w]. rewrite start_setup_split.
  destruct (autostart_no_shutdown (autostart o) (wired o w)) as [t2 [Hlog Htail]].
  exists (prelude_actions o ++ rev t2). split.
  - unfold history at 1. rewrite Hlog, rev_app_distr.
    change (rev (log (world (wired o w)))) with (history (wired o w)).
    rewrite history_wired. unfold history. cbn [world].
    rewrite <- app_assoc. reflexivity.
  - intros n b. cbn [self]. rewrite elem_of_app. split.
    + intros [Hin|Hin].
      * unfold prelude_actions in Hin.
        rewrite !elem_of_app in Hin. destruct Hin as [Hin|[Hin|[Hin|Hin]]].
        -- destruct (debug o); [apply elem_of_nil in Hin as []|].
           repeat (apply elem_of_cons in Hin as [Hin|Hin]; [discriminate Hin|]).
           apply elem_of_nil in Hin as [].
        -- apply list_elem_of_singleton in Hin. discriminate Hin.
        -- pose proof (setup_actions_no_shutdown (gpio_pins o)) as Hno.
           rewrite Forall_forall in Hno. apply Hno in Hin. discriminate Hin.
        -- unfold shutdown_actions in Hin.
           destruct (shutdown_pin o) as [m|]; [|apply elem_of_nil in Hin as []].
           case_bool_decide as Hm; [|apply elem_of_nil in Hin as []].
           apply elem_of_cons in Hin as [Hin|Hin]; [discriminate Hin|].
           apply list_elem_of_singleton in Hin. injection Hin as -> ->.
           split; [reflexivity|]. split; [exact Hm|reflexivity].
      * apply list_elem_of_In, in_rev, list_elem_of_In in Hin.
        rewrite Forall_forall in Htail. apply Htail in Hin. discriminate Hin.
    + intros (Hsd & Hn & ->). left. unfold prelude_actions.
      rewrite !elem_of_app. do 3 right. unfold shutdown_actions.
      rewrite Hsd.
      rewrite bool_decide_eq_true_2 by (exact Hn). right. left.
Qed.

(** ** The end of the splash process *)

Lemma last_teardown_action o h :
  _splashproc o = Some h ->
  last (teardown_actions o) = Some (Killpg (getpgid h) SIGKILL).
Proof.
  intros Hsp. unfold teardown_actions, splash_kill. rewrite Hsp.
  rewrite !app_assoc. apply last_snoc.
Qed.

(** X16: the splash process is started without a session of its own, so when
    the run loop is left the teardown addresses its last call, the kill
    signal, to the process group of the looper itself. *)
Theorem teardown_kills_own_group (o : VidLooper) (w : World) (path : string)
    (evs : list event) (e : exn) (s' : Sys) :
  autostart o = true ->
  splash o = Some path ->
  head (launches w) ≠ Some false ->
  start evs {| self := o; world := w |} = (Raise e, s') ->
  last (history s') = Some (Killpg own_pgid SIGKILL).
Proof.
  intros Hauto Hsplash Hla Hrun. unfold start, bind in Hrun.
  rewrite (start_setup_splash_run o w path) in Hrun by assumption.
  unfold try_finally in Hrun.
  pose proof (run_loop_never_returns evs (splashed o w path)) as Hnever.
  pose proof (run_loop_keeps_splashproc (Some (splash_handle w path)) evs
                (splashed o w path) eq_refl) as Hkept.
  destruct (run_loop evs (splashed o w path)) as [[[]|e1|] [o1 w1]];
    cbn [fst snd self] in *.
  - exfalso. apply Hnever. reflexivity.
  - rewrite del_run in Hrun. injection Hrun as <- <-.
    unfold history, torn_down. cbn [world log].
    rewrite rev_app_distr, rev_involutive, last_app.
    rewrite (last_teardown_action o1 _ Hkept). reflexivity.
  - discriminate Hrun.
Qed.

Lemma teardown_kills_own_group_witness :
  last (history (start [Tick; Edge 26; Throw KeyboardInterrupt]
                   {| self := set_splash (Some "logo.png"%string) demo_looper;
                      world := power_on [] |}).2)
  = Some (Killpg own_pgid SIGKILL).
Proof.
  apply (teardown_kills_own_group
           (set_splash (Some "logo.png"%string) demo_looper) (power_on [])
           "logo.png" [Tick; Edge 26; Throw KeyboardInterrupt]
           KeyboardInterrupt);
    [reflexivity|reflexivity|discriminate|vm_compute; reflexivity].
Defined.

(** ** No player outlives a raising [start] *)

Lemma del_stops_players s :
  consistent s ->
  live_players (world (__del__ s).2) = [] /\ _p (self (__del__ s).2) = None.
Proof.
  intros Hc. pose proof (consistent_killed _ Hc) as Hnone.
  destruct s as [o w]. rewrite del_run. cbn [snd self world] in *.
  split; [|apply killed_self_p].
  unfold live_players, torn_down. cbn [world procs].
  destruct (_splashproc o) as [h|]; [|exact Hnone].
  rewrite live_players_filtered, Hnone. reflexivity.
Qed.

(** X18: started with no handle stored, no player running and the mutex
    free, once the setup of [start] has returned and the run loop is then
    left by an exception, under any schedule of whole calls, the teardown
    leaves no player running and no handle stored. *)
Theorem loop_exit_leaves_no_player (evs : list event) (s s1 s' : Sys)
    (e : exn) :
  _p (self s) = None ->
  live_players (world s) = [] ->
  locked (world s) = false ->
  start_setup s = (Ret tt, s1) ->
  start evs s = (Raise e, s') ->
  live_players (world s') = [] /\ _p (self s') = None.
Proof.
  intros Hp Hnone Hl Hsetup Hrun.
  assert (Hc : consistent s)
    by (destruct s; apply fresh_consistent; assumption).
  pose proof (keeps_consistent_start_setup s Hc) as Hc0.
  unfold start in Hrun. unfold bind at 1 in Hrun.
  rewrite Hsetup in Hrun, Hc0. cbn [snd] in Hc0.
  unfold try_finally in Hrun.
  pose proof (keeps_consistent_run_loop evs s1 Hc0) as Hc1.
  pose proof (run_loop_never_returns evs s1) as Hnever.
  destruct (run_loop evs s1) as [[[]|e1|] s2]; cbn [fst snd] in *.
  - exfalso. apply Hnever. reflexivity.
  - pose proof (del_stops_players s2 Hc1) as Hstop.
    destruct (__del__ s2) as [[[]|e2|] s3]; cbn [snd] in Hstop;
      inversion Hrun; subst; exact Hstop.
  - discriminate Hrun.
Qed.

Lemma loop_exit_leaves_no_player_witness :
  live_players
    (world (start [Edge 19; Throw KeyboardInterrupt] (demo [])).2) = [].
Proof.
  apply (loop_exit_leaves_no_player [Edge 19; Throw KeyboardInterrupt]
           (demo []) (start_setup (demo [])).2 _ KeyboardInterrupt
           eq_refl eq_refl eq_refl).
  - vm_compute. reflexivity.
  - vm_compute. reflexivity.
Defined.

(** * How the operations compose *)

(** X19: stopping is idempotent: a second [_kill_process] right after the
    first only reads [_p]; the handle is signalled at most once. *)
Theorem kill_process_twice (s : Sys) :
  exists s',
    (_kill_process ;;; _kill_process) s = (Ret tt, s') /\
    _p (self s') = None /\
    history s' = history s ++ kill_actions (self s) ++ [Load F_p].
Proof.
  destruct s as [o w]. unfold bind. rewrite kill_process_run, kill_process_run.
  eexists. split; [reflexivity|]. cbn [self world].
  split; [unfold killed_self at 1; rewrite killed_self_p; apply killed_self_p|].
  unfold history. cbn [world log self].
  unfold kill_actions at 1. rewrite killed_self_p.
  rewrite !rev_app_distr, rev_involutive. cbn [rev app].
  rewrite <- app_assoc. reflexivity.
Qed.

(** X20: with looping off, once the poll has seen the player end, the button
    of the video that just played starts it again under a new handle, even
    though [restart_on_press] is off. *)
Theorem replay_after_natural_end (o : VidLooper) (w : World) (h : Popen)
    (pin : Z) (k : nat) (video : string) :
  loop o = false ->
  _p o = Some h ->
  locked w = false ->
  index_of (in_pins o) pin = Some k ->
  videos o !! k = Some video ->
  head (launches w) ≠ Some false ->
  exists s',
    (loop_body ;;; switch_vid pin) {| self := o; world := w |} = (Ret tt, s') /\
    _active_vid (self s') = Some video /\
    _p (self s') = Some (new_player o w video) /\
    spawn_action o video (Some (next_pid w)) ∈ history s'.
Proof.
  intros Hlp Hp Hl Hi Hv Hla. unfold bind.
  rewrite (loop_body_finished o w h) by assumption. unfold polled.
  rewrite (switch_vid_launched pin _ _ k video); try assumption;
    [|reflexivity].
  eexists. split; [reflexivity|]. unfold launched. cbn [self world].
  split; [reflexivity|]. split; [reflexivity|].
  unfold history. cbn [world log].
  apply list_elem_of_In, in_rev. rewrite rev_involutive.
  do 3 right. left. reflexivity.
Qed.

Lemma replay_after_natural_end_witness :
  exists s',
    (loop_body ;;; switch_vid 26)
      {| self := self playing_a_once; world := world playing_a_once |}
    = (Ret tt, s') /\
    _active_vid (self s') = Some "a.mp4"%string.
Proof.
  destruct (replay_after_natural_end
              (self playing_a_once) (world playing_a_once)
              {| pid := 100;
                 args := ["omxplayer"; "-b"; "-o"; "hdmi"; "a.mp4"]%string;
                 setsid := true |}
              26 0%nat "a.mp4")
    as [s' (Hrun & Hact & _)];
    [vm_compute; reflexivity|vm_compute; reflexivity|vm_compute; reflexivity
    |vm_compute; reflexivity|vm_compute; reflexivity|vm_compute; discriminate|].
  exists s'. split; [exact Hrun|exact Hact].
Defined.

Lemma presses_same_pin n pin o w k video :
  locked w = false ->
  index_of (in_pins o) pin = Some k ->
  videos o !! k = Some video ->
  _active_vid o = Some video ->
  restart_on_press o = false ->
  self (presses (repeat pin n) {| self := o; world := w |}) = o /\
  procs (world (presses (repeat pin n) {| self := o; world := w |})) = procs w /\
  next_pid (world (presses (repeat pin n) {| self := o; world := w |}))
  = next_pid w.
Proof.
  intros Hl Hi Hv Ha Hr. revert w Hl.
  induction n as [|n IH]; intros w Hl; cbn [repeat presses].
  - repeat split.
  - rewrite (switch_vid_same pin o w k video) by assumption. cbn [snd].
    apply (IH (indicated pin o w [Load F_active_vid])). reflexivity.
Qed.

(** X21: a switch whose launch fails strands the machine: the old player has
    been stopped and no new one runs, yet the old video still counts as
    active, so with [restart_on_press] off no number of presses of its
    own button starts it again. *)
Theorem failed_switch_strands_machine (s : Sys) (pin_a pin_b : Z)
    (ka kb : nat) (video_a video_b : string) (n : nat) :
  consistent s ->
  index_of (in_pins (self s)) pin_a = Some ka ->
  videos (self s) !! ka = Some video_a ->
  index_of (in_pins (self s)) pin_b = Some kb ->
  videos (self s) !! kb = Some video_b ->
  video_b ≠ video_a ->
  _active_vid (self s) = Some video_a ->
  restart_on_press (self s) = false ->
  head (launches (world s)) = Some false ->
  _p (self (presses (pin_b :: repeat pin_a n) s)) = None /\
  _active_vid (self (presses (pin_b :: repeat pin_a n) s)) = Some video_a /\
  live_players (world (presses (pin_b :: repeat pin_a n) s)) = [] /\
  next_pid (world (presses (pin_b :: repeat pin_a n) s)) = next_pid (world s).
Proof.
  intros Hc Hia Hva Hib Hvb Hne Hact Hr Hla.
  pose proof (consistent_killed s Hc) as Hnone.
  destruct s as [o w]. cbn [self world] in *. cbn [presses].
  rewrite (switch_vid_launch_failed pin_b o w kb video_b);
    [|apply Hc|assumption|assumption| |assumption].
  2:{ rewrite Hact. rewrite bool_decide_eq_true_2 by congruence. reflexivity. }
  cbn [snd]. unfold failed_launch.
  destruct (presses_same_pin n pin_a (killed_self o)
              {| levels := write_levels (gpio_pins o) pin_b (levels w);
                 procs := killed_procs o (procs w);
                 next_pid := next_pid w; launches := tail (launches w);
                 locked := false;
                 log := LockRelease :: spawn_action o video_b None
                        :: rev (kill_actions o)
                        ++ Load F_active_vid
                        :: rev (output_actions (gpio_pins o) pin_b)
                        ++ LockAcquire :: log w |} ka video_a)
    as (Hself & Hprocs & Hpid).
  - reflexivity.
  - unfold killed_self, in_pins. destruct (_p o); exact Hia.
  - unfold killed_self. destruct (_p o); exact Hva.
  - rewrite killed_self_active. exact Hact.
  - unfold killed_self. destruct (_p o); exact Hr.
  - rewrite Hself. unfold live_players. rewrite Hprocs, Hpid.
    cbn [procs next_pid]. split; [apply killed_self_p|].
    split; [rewrite killed_self_active; exact Hact|].
    split; [exact Hnone|reflexivity].
Qed.

Lemma failed_switch_strands_machine_witness :
  _p (self (presses (19 :: repeat 26 3)%Z playing_a_next_fails)) = None /\
  live_players (world (presses (19 :: repeat 26 3)%Z playing_a_next_fails))
  = [].
Proof.
  assert (Hc : consistent playing_a_next_fails).
  { apply (presses_consistent [26]%Z (demo [true; false])).
    apply fresh_consistent; reflexivity. }
  destruct (failed_switch_strands_machine playing_a_next_fails 26 19
              0%nat 1%nat "a.mp4" "b.mp4" 3 Hc)
    as (Hp & _ & Hlive & _);
    try (vm_compute; reflexivity); [discriminate|].
  split; assumption.
Defined.

(** X22: with [restart_on_press] on, a press of the button of the video
    that plays is not ignored: the player is interrupted and the same
    video is launched again under a new handle, inside one critical
    section. *)
Theorem repeat_press_restarts_when_asked pin o w k filename h :
  locked w = false ->
  index_of (in_pins o) pin = Some k ->
  videos o !! k = Some filename ->
  _active_vid o = Some filename ->
  restart_on_press o = true ->
  _p o = Some h ->
  head (launches w) ≠ Some false ->
  exists s',
    switch_vid pin {| self := o; world := w |} = (Ret tt, s') /\
    history s' = rev (log w) ++ [LockAcquire]
                 ++ output_actions (gpio_pins o) pin
                 ++ [Load F_active_vid; Load F_p; Load F_p;
                     Killpg (getpgid h) SIGINT; Store F_p;
                     spawn_action o filename (Some (next_pid w));
                     Store F_p; Store F_active_vid; LockRelease] /\
    _p (self s') = Some (new_player o w filename) /\
    _active_vid (self s') = Some filename.
Proof.
  intros Hl Hi Hv _ Hr Hp Hla.
  exact (switch_vid_restart pin o w k filename h Hl Hi Hv Hr Hp Hla).
Qed.

Lemma repeat_press_restarts_when_asked_witness :
  exists s',
    switch_vid 26 {| self := self playing_a_restartable;
                     world := world playing_a_restartable |} = (Ret tt, s') /\
    _active_vid (self s') = Some "a.mp4"%string.
Proof.
  destruct (repeat_press_restarts_when_asked 26 (self playing_a_restartable)
              (world playing_a_restartable) 0%nat "a.mp4"
              {| pid := 100;
                 args := ["omxplayer"; "-b"; "-o"; "hdmi"; "--loop"; "a.mp4"]%string;
                 setsid := true |})
    as [s' (Hrun & _ & _ & Hact)];
    [vm_compute; reflexivity|vm_compute; reflexivity|vm_compute; reflexivity
    |vm_compute; reflexivity|vm_compute; reflexivity|vm_compute; reflexivity
    |vm_compute; discriminate|].
  exists s'. split; [exact Hrun|exact Hact].
Defined.

(** ** A press while the poll waits *)

(** Entering and leaving the wait, with nothing in between, is the first
    half of the poll. *)
Lemma poll_wait_split s :
  poll_wait s = (r <~ poll_enter ;; poll_leave r.2 ;;; ret r.1) s.
Proof.
  destruct s as [o w].
  destruct w as [lv ps np la lk lg].
  destruct o as [pins sd vids dbg au auto rs lp osd spl sp act [h|]].
  - unfold poll_wait, poll_enter, poll_leave, communicate, load_p_pid, load_p,
      bind, attr, emit, in_world.
    cbn -[bool_decide].
    rewrite (bool_decide_eq_true_2 (is_Some (Some h))) by (exists h; reflexivity).
    reflexivity.
  - unfold poll_wait, poll_enter, poll_leave, communicate, load_p_pid, load_p,
      bind, attr, emit, in_world.
    cbn -[bool_decide].
    rewrite (bool_decide_eq_false_2 (is_Some None))
      by (intros [? [=]]).
    reflexivity.
Qed.

Lemma poll_enter_run o w h :
  _p o = Some h ->
  poll_enter {| self := o; world := w |} =
  (Ret (pid h, Some h),
   {| self := o; world := with_log (app [Load F_p; Load F_p; Load F_p]) w |}).
Proof.
  intros Hp. destruct w as [lv ps np la lk lg].
  destruct o as [pins sd vids dbg au auto rs lp osd spl sp act p].
  cbn in Hp. subst p.
  unfold poll_enter, load_p_pid, load_p, emit, in_world, bind, attr.
  cbn -[bool_decide].
  rewrite (bool_decide_eq_true_2 (is_Some (Some h))) by (exists h; reflexivity).
  reflexivity.
Qed.

(** X23: when the player still runs as the poll blocks in [communicate]
    and a press replaces it during that wait, the old player is
    interrupted before [communicate] returns, and the poll, woken by its
    end, finds another pid under [_p] and resets nothing: the new video
    stays active, its player runs under its handle, the old one is gone,
    and with no output pin shared the LED of the new video stays the one
    lit. *)
Theorem press_during_wait_is_no_exit (o : VidLooper) (w : World) (h : Popen)
    (pin : Z) (k : nat) (video : string) :
  _p o = Some h ->
  pid h ∈ p_pid <$> procs w ->
  pid h ≠ next_pid w ->
  locked w = false ->
  index_of (in_pins o) pin = Some k ->
  videos o !! k = Some video ->
  bool_decide (Some video ≠ _active_vid o) || restart_on_press o = true ->
  head (launches w) ≠ Some false ->
  exists s',
    poll_with_press pin {| self := o; world := w |} = (Ret tt, s') /\
    history s' = rev (log w) ++ [Load F_p; Load F_p; Load F_p; LockAcquire]
                 ++ output_actions (gpio_pins o) pin
                 ++ [Load F_active_vid; Load F_p; Load F_p;
                     Killpg (getpgid h) SIGINT; Store F_p;
                     spawn_action o video (Some (next_pid w));
                     Store F_p; Store F_active_vid; LockRelease;
                     Communicate (pid h); Load F_p; Load F_p] /\
    _active_vid (self s') = Some video /\
    _p (self s') = Some (new_player o w video) /\
    {| p_pid := next_pid w; p_pgid := next_pid w;
       p_args := player_cmd o ++ [video] |} ∈ procs (world s') /\
    (pid h ∉ p_pid <$> procs (world s')) /\
    (NoDup (out_pins (gpio_pins o)) ->
     forall i out, (i, Some out) ∈ gpio_pins o ->
       levels (world s') !! out = Some (bool_decide (i = pin))).
Proof.
  intros Hp _ Hpid Hl Hi Hv Hgo Hla. unfold poll_with_press, bind at 1.
  rewrite (poll_enter_run o w h Hp). cbn [fst snd]. unfold bind at 1.
  unfold on_gpio_thread.
  rewrite (switch_vid_launched pin o _ k video)
    by (destruct w; assumption).
  unfold poll_leave, communicate, emit, in_world, bind, launched.
  cbn [fst snd self world].
  rewrite (poll_reset_other _ _ (new_player o w video)).
  - destruct w as [lv ps np la lk lg]. cbn [next_pid] in Hpid.
    unfold with_log, with_procs, new_player.
    cbn [levels procs next_pid launches locked log].
    eexists. split; [reflexivity|].
    unfold history. cbn [self world levels procs log].
    split; [|split; [|split; [|split; [|split]]]].
    + unfold kill_actions. rewrite Hp.
      cbn [rev app]. rewrite !rev_app_distr. cbn [rev app].
      rewrite ?rev_app_distr, ?rev_involutive. cbn [rev app].
      rewrite <- ?app_assoc. cbn [app].
      reflexivity.
    + reflexivity.
    + unfold killed_self. destruct (_p o); reflexivity.
    + apply list_elem_of_filter. split.
      * cbn [p_pid]. congruence.
      * left.
    + intros Hin. apply list_elem_of_fmap in Hin as (pr & Heq & Hin).
      apply list_elem_of_filter in Hin as [Hne _]. apply Hne. symmetry. exact Heq.
    + intros Hnd i out Hin. apply write_levels_lookup; assumption.
  - unfold killed_self, new_player. destruct w.
    destruct (_p o); reflexivity.
  - cbn [pid new_player]. congruence.
Qed.

Lemma press_during_wait_is_no_exit_witness :
  exists s',
    poll_with_press 19
      {| self := self playing_a_once; world := world playing_a_once |}
    = (Ret tt, s') /\
    _active_vid (self s') = Some "b.mp4"%string.
Proof.
  destruct (press_during_wait_is_no_exit
              (self playing_a_once) (world playing_a_once)
              {| pid := 100;
                 args := ["omxplayer"; "-b"; "-o"; "hdmi"; "a.mp4"]%string;
                 setsid := true |}
              19 1%nat "b.mp4")
    as [s' (Hrun & _ & Hact & _)];
    [vm_compute; reflexivity|vm_compute; left|vm_compute; discriminate
    |vm_compute; reflexivity|vm_compute; reflexivity|vm_compute; reflexivity
    |vm_compute; reflexivity|vm_compute; discriminate|].
  exists s'. split; [exact Hrun|exact Hact].
Defined.

(** ** A player that ends while looping is on *)

Lemma ticks_when_looping n pin o w :
  loop o = true ->
  exists w',
    run_loop (repeat Tick n ++ [Edge pin]) {| self := o; world := w |}
    = run_loop [Edge pin] {| self := o; world := w' |} /\
    levels w' = levels w /\ procs w' = procs w /\ next_pid w' = next_pid w /\
    launches w' = launches w /\ locked w' = locked w.
Proof.
  intros Hlp. revert w. induction n as [|n IH]; intros w.
  - exists w. repeat split.
  - cbn [repeat app run_loop react]. unfold bind at 1.
    rewrite loop_body_looping by (exact Hlp).
    destruct (IH (with_log (cons (Sleep 500)) w)) as [w' (Hrun & Hrest)].
    exists w'. split; [exact Hrun|]. destruct w. exact Hrest.
Qed.

(** X24: with looping on, the run loop never looks at the player: if it ends
    by itself, its handle and video stay recorded through any number of
    turns, and with [restart_on_press] off the button of that video then
    starts nothing, so no player runs. *)
Theorem ended_player_stays_active_when_looping (s : Sys) (h : Popen)
    (pin : Z) (k : nat) (video : string) (n : nat) :
  consistent s ->
  loop (self s) = true ->
  restart_on_press (self s) = false ->
  _p (self s) = Some h ->
  _active_vid (self s) = Some video ->
  index_of (in_pins (self s)) pin = Some k ->
  videos (self s) !! k = Some video ->
  self (run_loop (ChildExit (pid h) :: repeat Tick n ++ [Edge pin]) s).2
  = self s /\
  live_players
    (world (run_loop (ChildExit (pid h) :: repeat Tick n ++ [Edge pin]) s).2)
  = [] /\
  next_pid
    (world (run_loop (ChildExit (pid h) :: repeat Tick n ++ [Edge pin]) s).2)
  = next_pid (world s).
Proof.
  intros Hc Hlp Hr Hp Hact Hi Hv. destruct s as [o w]. cbn [self world] in *.
  assert (Hgone : filter is_player (filter (fun pr => p_pid pr ≠ pid h) (procs w)) = []).
  { apply elem_of_nil_inv. intros pr Hpr.
    apply list_elem_of_filter in Hpr as [Hplayer Hpr].
    apply list_elem_of_filter in Hpr as [Hpid Hpr].
    destruct (c_held _ Hc pr) as [_ [h' [Hh' Hsame]]].
    { apply list_elem_of_filter. split; assumption. }
    cbn [self] in Hh'. rewrite Hp in Hh'. injection Hh' as <-.
    apply Hpid. congruence. }
  destruct (ticks_when_looping n pin o
              (with_procs (filter (fun pr => p_pid pr ≠ pid h)) w) Hlp)
    as [w' (Hrun & _ & Hprocs & Hpid & _ & Hlock)].
  assert (Hfinal :
    run_loop (ChildExit (pid h) :: repeat Tick n ++ [Edge pin])
             {| self := o; world := w |}
    = (Hang, {| self := o; world := indicated pin o w' [Load F_active_vid] |})).
  { change (run_loop (ChildExit (pid h) :: repeat Tick n ++ [Edge pin])
                     {| self := o; world := w |})
      with (run_loop (repeat Tick n ++ [Edge pin])
              {| self := o;
                 world := with_procs (filter (fun pr => p_pid pr ≠ pid h)) w |}).
    rewrite Hrun. cbn [run_loop react]. unfold bind, on_gpio_thread.
    rewrite (switch_vid_same pin o w' k video); try assumption; [reflexivity|].
    rewrite Hlock. apply Hc. }
  rewrite Hfinal. cbn [snd self world]. unfold live_players, indicated.
  cbn [procs next_pid]. rewrite Hprocs, Hpid. cbn [with_procs procs next_pid].
  split; [reflexivity|]. split; [exact Hgone|reflexivity].
Qed.

Lemma ended_player_stays_active_when_looping_witness :
  live_players
    (world (run_loop (ChildExit 100 :: repeat Tick 3 ++ [Edge 26])
                     playing_a).2)
  = [].
Proof.
  assert (Hc : consistent playing_a).
  { apply (presses_consistent [26]%Z (demo [])).
    apply fresh_consistent; reflexivity. }
  refine (proj1 (proj2 (ended_player_stays_active_when_looping playing_a
              {| pid := 100;
                 args := ["omxplayer"; "-b"; "-o"; "hdmi"; "--loop"; "a.mp4"]%string;
                 setsid := true |}
              26 0%nat "a.mp4" 3 Hc _ _ _ _ _ _)));
    vm_compute; reflexivity.
Defined.

(** * Construction, again *)

(** X8: called with [videos=None], the default of its own signature,
    [__init__] never returns an object: a missing directory is a
    [FileNotFoundError], a directory without videos an [Exception], and
    with videos found the assertion itself fails with [TypeError]. *)
Theorem init_default_videos_raises (fs : FS) (au : string)
    (auto rs : bool) (dir : string) (pins : option (list (Z * option Z)))
    (lp osd : bool) (sd : option Z) (spl : option string) (dbg : bool) :
  __init__ fs au auto rs dir None pins lp osd sd spl dbg =
  inl match listdir fs dir with
      | None => FileNotFoundError
      | Some names =>
          if bool_decide (filter is_video (sorted names) = [])
          then Exception else TypeError
      end.
Proof.
  unfold __init__. destruct (listdir fs dir) as [names|]; [|reflexivity].
  destruct (filter is_video (sorted names)) as [|f found]; reflexivity.
Qed.

(** X9: an object that [__init__] returns has at least one video, one of the
    three audio routes, the pins it was given or the default four, and an
    empty player state. *)
Theorem init_object_is_sound (fs : FS) (au : string) (auto rs : bool)
    (dir : string) (vids : option (list string))
    (pins : option (list (Z * option Z))) (lp osd : bool) (sd : option Z)
    (spl : option string) (dbg : bool) (o : VidLooper) :
  __init__ fs au auto rs dir vids pins lp osd sd spl dbg = inr o ->
  videos o ≠ [] /\
  audio o ∈ ["hdmi"; "local"; "both"]%string /\
  gpio_pins o = default _GPIO_PIN_DEFAULT pins /\
  _p o = None /\ _active_vid o = None /\ _splashproc o = None.
Proof.
  unfold __init__.
  set (assembled := match vids with Some (v :: vs) => _ | _ => _ end).
  destruct assembled as [e|found] eqn:Hfound; [discriminate|].
  assert (Hne : found ≠ []).
  { subst assembled. destruct vids as [[|v vs]|].
    - destruct (listdir fs dir) as [names|]; [|discriminate].
      destruct (path_join dir <$> filter is_video (sorted names));
        [discriminate|]. injection Hfound as <-. discriminate.
    - destruct (forallb (path_exists fs) (v :: vs)); [|discriminate].
      injection Hfound as <-. discriminate.
    - destruct (listdir fs dir) as [names|]; [|discriminate].
      destruct (path_join dir <$> filter is_video (sorted names));
        [discriminate|]. injection Hfound as <-. discriminate. }
  destruct vids as [given|]; [|discriminate].
  case_bool_decide; [|discriminate]. case_bool_decide as Hau; [|discriminate].
  intros [= <-]. cbn. repeat split; assumption.
Qed.

Lemma init_object_is_sound_witness :
  videos demo_looper ≠ [] /\ _p demo_looper = None.
Proof.
  destruct (init_object_is_sound
              {| path_exists := fun _ => true; listdir := fun _ => None |}
              "hdmi" true false "."
              (Some ["a.mp4"; "b.mp4"]%string)
              (Some [(26, Some 21); (19, Some 20); (13, Some 16)]%Z)
              true false None None false demo_looper)
    as (Hvids & _ & _ & Hp & _); [vm_compute; reflexivity|].
  split; assumption.
Defined.

(** X10: with an explicit, non-empty list of videos, [__init__] returns an
    object only if every listed file exists and the list is no longer
    than the pin dictionary; the object then plays exactly those videos,
    in the order given. *)
Theorem init_explicit_videos (fs : FS) (au : string) (auto rs : bool)
    (dir : string) (v : string) (vs : list string)
    (pins : option (list (Z * option Z))) (lp osd : bool) (sd : option Z)
    (spl : option string) (dbg : bool) (o : VidLooper) :
  __init__ fs au auto rs dir (Some (v :: vs)) pins lp osd sd spl dbg = inr o ->
  videos o = v :: vs /\
  Forall (fun f => path_exists fs f = true) (v :: vs) /\
  (length (videos o) <= length (gpio_pins o))%nat.
Proof.
  unfold __init__.
  destruct (forallb (path_exists fs) (v :: vs)) eqn:Hexists; [|discriminate].
  case_bool_decide as Hlen; [|discriminate].
  case_bool_decide; [|discriminate].
  intros [= <-]. cbn [videos gpio_pins]. split; [reflexivity|].
  split; [|exact Hlen].
  apply Forall_forall. intros f Hf.
  rewrite forallb_forall in Hexists. apply Hexists, list_elem_of_In, Hf.
Qed.

Lemma init_explicit_videos_witness :
  videos demo_looper = ["a.mp4"; "b.mp4"]%string /\
  (length (videos demo_looper) <= length (gpio_pins demo_looper))%nat.
Proof.
  destruct (init_explicit_videos
              {| path_exists := fun _ => true; listdir := fun _ => None |}
              "hdmi" true false "." "a.mp4" ["b.mp4"%string]
              (Some [(26, Some 21); (19, Some 20); (13, Some 16)]%Z)
              true false None None false demo_looper)
    as (Hvids & _ & Hlen); [vm_compute; reflexivity|].
  split; assumption.
Defined.

(** * The countdown *)

Lemma descending_step n :
  (0 < n)%Z -> descending n = n :: descending (n - 1).
Proof.
  intros Hn. unfold descending.
  replace (Z.to_nat n) with (S (Z.to_nat (n - 1))) by lia.
  cbn [seq fmap list_fmap]. f_equal; [lia|].
  rewrite <- fmap_S_seq, <- list_fmap_compose.
  apply list_fmap_ext. intros i x _. cbn. lia.
Qed.

(** X7: with fuel for its [countdown] turns the loop comes to its end: it has
    announced [countdown], [countdown - 1], ..., [1], flushed and slept a
    second after each announcement, and left with the counter at 0; a
    countdown of zero or less does nothing and keeps its value. *)
Theorem countdown_announces_each_second (fuel : nat) (countdown : Z) :
  (Z.to_nat countdown <= fuel)%nat ->
  countdown_loop fuel countdown =
  (descending countdown ≫= (fun c => [Announce c; Flush; SleepSecond]),
   Some (Z.min countdown 0)).
Proof.
  revert countdown. induction fuel as [|fuel IH]; intros countdown Hfuel;
    cbn [countdown_loop]; case_bool_decide as Hpos.
  - lia.
  - unfold descending. replace (Z.to_nat countdown) with 0%nat by lia.
    cbn. do 2 f_equal. lia.
  - rewrite IH by lia. rewrite (descending_step countdown Hpos).
    cbn. do 2 f_equal. lia.
  - unfold descending. replace (Z.to_nat countdown) with 0%nat by lia.
    cbn. do 2 f_equal. lia.
Qed.

Lemma countdown_announces_each_second_witness :
  countdown_loop 5 3 =
  ([Announce 3; Flush; SleepSecond; Announce 2; Flush; SleepSecond;
    Announce 1; Flush; SleepSecond], Some 0%Z).
Proof.
  rewrite (countdown_announces_each_second 5 3) by (vm_compute; lia).
  reflexivity.
Defined.
